(** * discoverd2/server/state.go: the in-memory service registry

    A shallow embedding of the registry core of discoverd: the instance
    model ([Instance], [Equal], [Valid]), the per-service table with its
    leader bookkeeping ([service], [maybeSetLeader], [maybePickLeader], ...),
    the registry ([State]) whose mutations hand events to [broadcast], and
    [Subscribe] with its snapshot delivery.

    Conventions of the embedding.
    - Go strings are byte strings: [string].  [uint64] and the [EventKind]
      bitmask ([uint]) are [N]; the code only compares and masks them.
    - A Go map is a [gmap].  A nil map and an empty map read alike, and the
      methods of the registry never write to a nil map, so both are [∅]
      there.  The service table can be handed a nil map by [SetInstances]
      and then panics in [AddInstance]: calls on the table alone
      ([table_step]) carry, beside the service, whether its map is nil.
    - [*Instance] values are treated as immutable values; a possibly nil
      [*Instance] is an [option Instance], a possibly nil [*service] an
      [option service].
    - Go leaves the iteration order of [range] over a map unspecified.  The
      order is a parameter of the model: a [MapRange] is any enumeration of
      the entries of a map, and every result holds for all of them.
    - A nil dereference is a [Panic] result.
    - The events of a mutation are the sequence of its calls to [broadcast];
      the snapshot of [Subscribe] is the sequence of its sends on [ch]. *)

From stdpp Require Import gmap strings list fin_maps.
From Stdlib Require Import NArith Ascii.

Open Scope N_scope.

(** ** Event kinds *)

Definition EventKind := N.

Definition EventKindUp : EventKind := 1.
Definition EventKindUpdate : EventKind := 2.
Definition EventKindDown : EventKind := 4.
Definition EventKindLeader : EventKind := 8.
Definition EventKindUnknown : EventKind := 0.

Definition eventKindUpdate (existing : bool) : EventKind :=
  if existing then EventKindUpdate else EventKindUp.

(** ** Instances *)

Record Instance := mkInstance {
  ID : string;
  Addr : string;
  Proto : string;
  Meta : gmap string string;
  Index : N
}.

Record Event := mkEvent {
  Service : string;
  Kind : EventKind;
  Inst : Instance
}.

(** [mapEqual]: same length, and every entry of [x] is an entry of [y]. *)
Definition mapEqual (x y : gmap string string) : bool :=
  if negb (Nat.eqb (size x) (size y)) then false
  else forallb (λ kv, bool_decide (y !! kv.1 = Some kv.2)) (map_to_list x).

Definition Equal (inst other : Instance) : bool :=
  String.eqb (Addr inst) (Addr other) &&
  String.eqb (Proto inst) (Proto other) &&
  mapEqual (Meta inst) (Meta other).

(** ** Validation of instances *)

(** [range] over a Go string yields runes: a byte below [0x80] is its own
    rune, anything else goes through the runtime's UTF-8 decoder, which
    yields [RuneError] of width 1 on an invalid encoding. *)
Definition RuneError : N := 0xFFFD.

Definition isContinuation (b : N) : bool := (0x80 <=? b) && (b <=? 0xBF).

Definition decoderune (s : list N) : N * nat :=
  match s with
  | b0 :: rest =>
      if (0xC0 <=? b0) && (b0 <? 0xE0) then
        match rest with
        | b1 :: _ =>
            let r := N.lor (N.shiftl (N.land b0 0x1F) 6) (N.land b1 0x3F) in
            if isContinuation b1 && (0x7F <? r) then (r, 2%nat) else (RuneError, 1%nat)
        | _ => (RuneError, 1%nat)
        end
      else if (0xE0 <=? b0) && (b0 <? 0xF0) then
        match rest with
        | b1 :: b2 :: _ =>
            let r := N.lor (N.lor (N.shiftl (N.land b0 0x0F) 12)
                                  (N.shiftl (N.land b1 0x3F) 6))
                           (N.land b2 0x3F) in
            if isContinuation b1 && isContinuation b2 &&
               (0x7FF <? r) && negb ((0xD800 <=? r) && (r <=? 0xDFFF))
            then (r, 3%nat) else (RuneError, 1%nat)
        | _ => (RuneError, 1%nat)
        end
      else if (0xF0 <=? b0) && (b0 <? 0xF8) then
        match rest with
        | b1 :: b2 :: b3 :: _ =>
            let r := N.lor (N.lor (N.lor (N.shiftl (N.land b0 0x07) 18)
                                         (N.shiftl (N.land b1 0x3F) 12))
                                  (N.shiftl (N.land b2 0x3F) 6))
                           (N.land b3 0x3F) in
            if isContinuation b1 && isContinuation b2 && isContinuation b3 &&
               (0xFFFF <? r) && (r <=? 0x10FFFF)
            then (r, 4%nat) else (RuneError, 1%nat)
        | _ => (RuneError, 1%nat)
        end
      else (RuneError, 1%nat)
  | [] => (RuneError, 1%nat)
  end.

Definition nextRune (s : list N) : N * nat :=
  match s with
  | b0 :: _ => if b0 <? 0x80 then (b0, 1%nat) else decoderune s
  | [] => (RuneError, 1%nat)
  end.

(** The runes of a byte sequence; [fuel] bounds the number of iterations,
    and the length of the sequence is always enough. *)
Fixpoint runesFrom (fuel : nat) (s : list N) : list N :=
  match fuel, s with
  | S fuel', _ :: _ => (nextRune s).1 :: runesFrom fuel' (drop (nextRune s).2 s)
  | _, _ => []
  end.

Definition bytesOf (s : string) : list N := N_of_ascii <$> String.list_ascii_of_string s.

Definition runes (s : string) : list N := runesFrom (length (bytesOf s)) (bytesOf s).

(** [net.AddrError], the error of [net.SplitHostPort]. *)
Record AddrError := mkAddrError { Err : string; AddrOf : string }.

Inductive error :=
| ErrUnsetProto
| ErrInvalidProto
| ErrAddr (e : AddrError)
| Errorf (msg : string).

(** The test of [validProto] on one rune: neither a lowercase letter nor a
    digit. *)
Definition notLowerAlnum (r : N) : bool :=
  ((r <? 97) || (122 <? r)) && ((r <? 48) || (57 <? r)).

Definition validProto (inst : Instance) : option error :=
  if String.eqb (Proto inst) "" then Some ErrUnsetProto
  else if existsb notLowerAlnum (runes (Proto inst)) then Some ErrInvalidProto
  else None.

(** [hex.EncodeToString]: two digits of [0123456789abcdef] per byte. *)
Definition hextable : list ascii := String.list_ascii_of_string "0123456789abcdef".

Definition hexDigit (n : N) : ascii := nth (N.to_nat n) hextable "0"%char.

Fixpoint hex_EncodeToString (src : string) : string :=
  match src with
  | EmptyString => EmptyString
  | String b rest =>
      String (hexDigit (N.shiftr (N_of_ascii b) 4))
        (String (hexDigit (N.land (N_of_ascii b) 0x0f)) (hex_EncodeToString rest))
  end.

Section Validation.
(** The two functions of Go's standard library that [Valid] calls. *)
Variable SplitHostPort : string → (string * string) + AddrError.
Variable md5_Sum : string → string.

Definition md5sum (data : string) : string := hex_EncodeToString (md5_Sum data).

(** [Instance.id]; named apart from the identity function. *)
Definition instance_id (inst : Instance) : string :=
  md5sum (Proto inst +:+ "-" +:+ Addr inst).

Definition Valid (inst : Instance) : option error :=
  match validProto inst with
  | Some err => Some err
  | None =>
      match SplitHostPort (Addr inst) with
      | inr err => Some (ErrAddr err)
      | inl _ =>
          let expected := instance_id inst in
          if negb (String.eqb (ID inst) expected)
          then Some (Errorf ("discoverd: instance id is incorrect, expected " +:+ expected))
          else None
      end
  end.
End Validation.

(** ** Iteration order of [range] over a map of instances *)

Class MapRange := {
  range_map : gmap string Instance → list (string * Instance);
  range_map_perm : ∀ m, range_map m ≡ₚ map_to_list m
}.

(** The enumeration that stdpp computes is one such order. *)
Definition canonical_range : MapRange :=
  {| range_map := map_to_list; range_map_perm := λ m, reflexivity _ |}.

(** ** The service table *)

Record service := mkService {
  instances : gmap string Instance;
  leaderID : string;
  leaderIndex : N;
  notifyLeader : bool
}.

Definition newService : service :=
  {| instances := ∅; leaderID := ""; leaderIndex := 0; notifyLeader := false |}.

(** [maybeSetLeader] adopts [inst] when no leader is set or when [inst] is
    older than the leader. *)
Definition adopts (s : service) (inst : Instance) : bool :=
  (leaderIndex s =? 0) || (Index inst <? leaderIndex s).

Definition maybeSetLeader (inst : Instance) (s : service) : service :=
  if adopts s inst then
    {| instances := instances s;
       leaderID := ID inst;
       leaderIndex := Index inst;
       notifyLeader := notifyLeader s || negb (String.eqb (ID inst) (leaderID s)) |}
  else s.

Definition clearLeader (s : service) : service :=
  {| instances := instances s; leaderID := ""; leaderIndex := 0;
     notifyLeader := notifyLeader s |}.

Definition setInstancesField (m : gmap string Instance) (s : service) : service :=
  {| instances := m; leaderID := leaderID s; leaderIndex := leaderIndex s;
     notifyLeader := notifyLeader s |}.

Definition setNotifyLeader (b : bool) (s : service) : service :=
  {| instances := instances s; leaderID := leaderID s;
     leaderIndex := leaderIndex s; notifyLeader := b |}.

Section ServiceTable.
Context {R : MapRange}.

Definition pickLeaderFrom (l : list (string * Instance)) (s : service) : service :=
  foldl (λ acc kv, maybeSetLeader kv.2 acc) s l.

Definition maybePickLeader (s : service) : service :=
  pickLeaderFrom (range_map (instances s)) s.

Definition service_AddInstance (inst : Instance) (s : service)
  : option Instance * service :=
  let old := instances s !! ID inst in
  (old, maybeSetLeader inst (setInstancesField (<[ID inst := inst]> (instances s)) s)).

Definition service_RemoveInstance (id : string) (s : service)
  : option Instance * service :=
  match instances s !! id with
  | None => (None, s)
  | Some inst =>
      let s1 := setInstancesField (delete id (instances s)) s in
      (Some inst,
       if String.eqb (ID inst) (leaderID s1)
       then maybePickLeader (clearLeader s1)
       else s1)
  end.

Definition service_SetInstances (data : gmap string Instance) (s : service)
  : service :=
  let s1 := match data !! leaderID s with
            | None => clearLeader s
            | Some _ => s
            end in
  maybePickLeader (setInstancesField data s1).

Definition service_BroadcastLeader (s : service) : option Instance * service :=
  if notifyLeader s
  then (instances s !! leaderID s, setNotifyLeader false s)
  else (None, s).

(** [Leader] is defined on a nil receiver. *)
Definition Leader (s : option service) : option Instance :=
  match s with
  | None => None
  | Some s => instances s !! leaderID s
  end.
End ServiceTable.

(** ** The registry *)

Record subscription := mkSubscription {
  sub_kinds : EventKind;
  sub_ch : nat;
  sub_service : string
}.

Record State := mkState {
  services : gmap string service;
  subscribers : gmap string (list subscription)
}.

Definition NewState : State := {| services := ∅; subscribers := ∅ |}.

(** The outcome of a registry method: it returns a value, the new registry
    and the events it broadcast, or it panics after some broadcasts. *)
Inductive result (A : Type) :=
| Ok (a : A) (st : State) (evs : list Event)
| Panic (evs : list Event).
Arguments Ok {A} a st evs.
Arguments Panic {A} evs.

Definition M (A : Type) : Type := State → result A.

#[export] Instance M_ret : MRet M := λ A a st, Ok a st [].
#[export] Instance M_bind : MBind M := λ A B f m st,
  match m st with
  | Panic evs => Panic evs
  | Ok a st1 evs1 =>
      match f a st1 with
      | Panic evs2 => Panic (evs1 ++ evs2)
      | Ok b st2 evs2 => Ok b st2 (evs1 ++ evs2)
      end
  end.

Definition nilDeref {A} : M A := λ _, Panic [].
Definition getServices : M (gmap string service) := λ st, Ok (services st) st [].
Definition putServices (m : gmap string service) : M unit :=
  λ st, Ok () {| services := m; subscribers := subscribers st |} [].
Definition getSubscribers : M (gmap string (list subscription)) :=
  λ st, Ok (subscribers st) st [].
Definition putSubscribers (m : gmap string (list subscription)) : M unit :=
  λ st, Ok () {| services := services st; subscribers := m |} [].

(** [broadcast] hands the event to the subscription bus. *)
Definition broadcast (e : Event) : M unit := λ st, Ok () st [e].

(** A [for ... range] loop over a list with a monadic body. *)
Fixpoint forEach {A} (l : list A) (body : A → M unit) : M unit :=
  match l with
  | [] => mret ()
  | a :: l' => body a ;; forEach l' body
  end.

Definition when (b : bool) (m : M unit) : M unit := if b then m else mret ().

Section Registry.
Context {R : MapRange}.

Definition AddService (name : string) : M unit :=
  svcs ← getServices;
  match svcs !! name with
  | Some _ => mret ()
  | None => putServices (<[name := newService]> svcs)
  end.

Definition RemoveService (name : string) : M unit :=
  svcs ← getServices;
  match svcs !! name with
  | None => nilDeref
  | Some svc =>
      forEach (range_map (instances svc))
        (λ kv, broadcast (mkEvent name EventKindDown kv.2));;
      svcs ← getServices;
      putServices (delete name svcs)
  end.

Definition broadcastLeader (serviceName : string) : M unit :=
  svcs ← getServices;
  match svcs !! serviceName with
  | None => nilDeref
  | Some svc =>
      let '(leader, svc') := service_BroadcastLeader svc in
      putServices (<[serviceName := svc']> svcs);;
      match leader with
      | Some l => broadcast (mkEvent serviceName EventKindLeader l)
      | None => mret ()
      end
  end.

Definition State_AddInstance (serviceName : string) (inst : Instance) : M unit :=
  svcs ← getServices;
  let data := default newService (svcs !! serviceName) in
  let '(old, data') := service_AddInstance inst data in
  putServices (<[serviceName := data']> svcs);;
  when (match old with
        | None => true
        | Some o => negb (Equal inst o)
        end)
    (broadcast (mkEvent serviceName (eventKindUpdate (bool_decide (is_Some old))) inst));;
  broadcastLeader serviceName.

Definition State_RemoveInstance (serviceName id : string) : M unit :=
  svcs ← getServices;
  match svcs !! serviceName with
  | None => mret ()
  | Some data =>
      let '(inst, data') := service_RemoveInstance id data in
      putServices (<[serviceName := data']> svcs);;
      match inst with
      | None => mret ()
      | Some i =>
          broadcast (mkEvent serviceName EventKindDown i);;
          broadcastLeader serviceName
      end
  end.

(** [newData] of [SetService]: later elements overwrite earlier ones. *)
Definition indexByID (data : list Instance) : gmap string Instance :=
  foldl (λ m inst, <[ID inst := inst]> m) ∅ data.

(** [data] is [None] for a nil slice. *)
Definition SetService (serviceName : string) (data : option (list Instance)) : M unit :=
  svcs ← getServices;
  let oldService := svcs !! serviceName in
  let ok := bool_decide (is_Some oldService) in
  let oldData := from_option instances ∅ oldService in
  let elems := default [] data in
  newData ← match data with
            | None =>
                putServices (delete serviceName svcs);;
                mret (∅ : gmap string Instance)
            | Some l =>
                let newData := indexByID l in
                let svc := default newService oldService in
                putServices (<[serviceName := service_SetInstances newData svc]> svcs);;
                mret newData
            end;
  if negb ok then
    forEach elems (λ inst, broadcast (mkEvent serviceName EventKindUp inst));;
    broadcastLeader serviceName
  else
    forEach elems (λ inst,
      let old := oldData !! ID inst in
      when (match old with
            | None => true
            | Some o => negb (Equal inst o)
            end)
        (broadcast (mkEvent serviceName (eventKindUpdate (bool_decide (is_Some old))) inst)));;
    forEach (range_map oldData) (λ kv,
      when (bool_decide (newData !! kv.1 = None))
        (broadcast (mkEvent serviceName EventKindDown kv.2)));;
    when (0 <? N.of_nat (length elems)) (broadcastLeader serviceName).

Definition getLocked (name : string) (svcs : gmap string service) : list Instance :=
  match svcs !! name with
  | None => []
  | Some data => (range_map (instances data)).*2
  end.

Definition Get (name : string) : M (list Instance) :=
  svcs ← getServices; mret (getLocked name svcs).

Definition GetLeader (name : string) : M (option Instance) :=
  svcs ← getServices; mret (Leader (svcs !! name)).

(** [Subscribe] returns the subscription together with the events it sent
    on [ch] before returning. *)
Definition Subscribe (service : string) (sendCurrent : bool)
    (kinds : EventKind) (ch : nat) : M (subscription * list Event) :=
  let sendCurrent :=
    sendCurrent &&
    negb (N.land kinds (N.lor (N.lor EventKindUp EventKindUpdate) EventKindLeader) =? 0) in
  svcs ← getServices;
  let current := if sendCurrent then getLocked service svcs else [] in
  let currentLeader := if sendCurrent then Leader (svcs !! service) else None in
  subs ← getSubscribers;
  let l := default [] (subs !! service) in
  let sub := mkSubscription kinds ch service in
  putSubscribers (<[service := l ++ [sub]]> subs);;
  let ups :=
    if negb (N.land kinds (N.lor EventKindUp EventKindUpdate) =? 0)
    then (λ inst, mkEvent service EventKindUp inst) <$> current
    else [] in
  let leaders :=
    match currentLeader with
    | Some l =>
        if negb (N.land kinds EventKindLeader =? 0)
        then [mkEvent service EventKindLeader l]
        else []
    | None => []
    end in
  mret (sub, ups ++ leaders).
End Registry.

(** ** Sequences of service-table mutations *)

Inductive mutation :=
| MutAdd (inst : Instance)
| MutRemove (id : string)
| MutSet (data : gmap string Instance).

(** The instances a mutation hands to the service table. *)
Definition handed_in (m : mutation) : list Instance :=
  match m with
  | MutAdd inst => [inst]
  | MutRemove _ => []
  | MutSet data => (map_to_list data).*2
  end.

(** Every map handed to [SetInstances] is keyed by instance ID, as the
    field comment of [service.instances] says and as [SetService] builds it. *)
Definition keyedByID (m : gmap string Instance) : Prop :=
  map_Forall (λ k i, ID i = k) m.

Definition mutation_keyed (m : mutation) : Prop :=
  match m with
  | MutSet data => keyedByID data
  | _ => True
  end.

Definition positive_indices (ms : list mutation) : Prop :=
  Forall (λ m, Forall (λ i, 0 < Index i) (handed_in m)) ms.

(** Indices are unique ([Index] determines [ID]) and no ID comes back with
    another index ([ID] determines [Index]). *)
Definition consistent_indices (ms : list mutation) : Prop :=
  let handed := mjoin (handed_in <$> ms) in
  Forall (λ a, Forall (λ b, ID a = ID b ↔ Index a = Index b) handed) handed.

Section Mutations.
Context {R : MapRange}.

Definition apply_mutation (s : service) (m : mutation) : service :=
  match m with
  | MutAdd inst => (service_AddInstance inst s).2
  | MutRemove id => (service_RemoveInstance id s).2
  | MutSet data => service_SetInstances data s
  end.

Definition run_mutations (ms : list mutation) (s : service) : service :=
  foldl apply_mutation s ms.
End Mutations.

(** ** Calls on the service table, nil maps included *)

(** [SetInstances] can be handed a nil map ([None]).  The table then holds
    a nil [instances] map, which reads like an empty one and cannot be
    assigned to. *)
Inductive table_call :=
| TableAdd (inst : Instance)
| TableRemove (id : string)
| TableSet (data : option (gmap string Instance)).

(** What a call does to the content of the table. *)
Definition table_mutation (c : table_call) : mutation :=
  match c with
  | TableAdd inst => MutAdd inst
  | TableRemove id => MutRemove id
  | TableSet data => MutSet (default ∅ data)
  end.

Definition isNilMap (data : option (gmap string Instance)) : bool :=
  match data with
  | None => true
  | Some _ => false
  end.

Section TableCalls.
Context {R : MapRange}.

(** One call on a table [(s, isNil)], where [isNil] tells whether
    [s.instances] is the nil map.  [AddInstance] assigns to an entry of the
    map, which panics ([None]) on a nil map; [RemoveInstance] only reads a
    nil map, and finds nothing; [SetInstances] stores the map it is handed. *)
Definition table_step (t : service * bool) (c : table_call) : option (service * bool) :=
  match c with
  | TableAdd inst =>
      if t.2 then None else Some ((service_AddInstance inst t.1).2, false)
  | TableRemove id => Some ((service_RemoveInstance id t.1).2, t.2)
  | TableSet data => Some (service_SetInstances (default ∅ data) t.1, isNilMap data)
  end.

Fixpoint run_table (cs : list table_call) (t : service * bool)
  : option (service * bool) :=
  match cs with
  | [] => Some t
  | c :: cs' =>
      match table_step t c with
      | Some t' => run_table cs' t'
      | None => None
      end
  end.
End TableCalls.

(** ** Predicates of the statements *)

(** Entries are stored under their own ID and carry a positive index. *)
Definition entries_ok (m : gmap string Instance) : Prop :=
  map_Forall (λ k i, ID i = k ∧ 0 < Index i) m.

(** The leader bookkeeping of a service.  [P i n] relates the stored leader
    [i] to [leaderIndex = n]: the emptiness result needs nothing of it,
    minimality takes [P i n := Index i = n]. *)
Definition led (P : Instance → N → Prop) (s : service) : Prop :=
  0 < leaderIndex s ∧
  ∃ i, instances s !! leaderID s = Some i ∧ P i (leaderIndex s).

Definition leader_inv (P : Instance → N → Prop) (s : service) : Prop :=
  entries_ok (instances s) ∧
  ((instances s = ∅ ∧ leaderIndex s = 0) ∨
   (led P s ∧ ∀ k j, instances s !! k = Some j → leaderIndex s ≤ Index j)).

(** What a mutation must respect when it overwrites a stored instance. *)
Definition replace_ok (P : Instance → N → Prop) (s : service) (m : mutation) : Prop :=
  ∀ i o n, i ∈ handed_in m → instances s !! ID i = Some o → P o n → P i n.

(** The instances currently registered under a service name. *)
Definition registered (st : State) (service : string) : gmap string Instance :=
  from_option instances ∅ (services st !! service).

Definition snapshotKinds : EventKind :=
  N.lor (N.lor EventKindUp EventKindUpdate) EventKindLeader.
Definition instanceKinds : EventKind := N.lor EventKindUp EventKindUpdate.

(** A string of lowercase ASCII letters and digits. *)
Definition lowerAlnumString (s : string) : Prop :=
  Forall (λ b, 97 ≤ b ≤ 122 ∨ 48 ≤ b ≤ 57) (bytesOf s).

(** ** Sample data *)

Definition instA : Instance :=
  {| ID := "d9e73816e6d15c5664df9d9d087b858b"; Addr := "10.0.0.1:80";
     Proto := "http"; Meta := ∅; Index := 5 |}.
Definition instB : Instance :=
  {| ID := "69f38af15f8dfaf8a19f37a56f8a6a56"; Addr := "10.0.0.2:80";
     Proto := "http"; Meta := ∅; Index := 7 |}.
Definition instC : Instance :=
  {| ID := "bc0454b6017ea9e9fcdef8cbac0ee288"; Addr := "10.0.0.3:80";
     Proto := "http"; Meta := ∅; Index := 9 |}.

(** [instA] registered again by a later log entry: only [Index] differs. *)
Definition instA_reindexed : Instance :=
  {| ID := ID instA; Addr := Addr instA; Proto := Proto instA;
     Meta := Meta instA; Index := 3 |}.

(** A service whose leader [instA] has been elected but not yet announced. *)
Definition pending_service : service :=
  {| instances := {[ID instA := instA]}; leaderID := ID instA;
     leaderIndex := Index instA; notifyLeader := true |}.

(** A registry with the service [web] holding [instA], announced leader. *)
Definition web_service : service :=
  {| instances := {[ID instA := instA]}; leaderID := ID instA;
     leaderIndex := Index instA; notifyLeader := false |}.
Definition web_state : State :=
  {| services := {["web" := web_service]}; subscribers := ∅ |}.

Definition sample_table_calls : list table_call :=
  [ TableAdd instB; TableAdd instA; TableRemove (ID instA);
    TableSet (Some {[ID instB := instB; ID instC := instC]}); TableAdd instA ].

(** A map that files [instA] under a key that is not its ID, and the
    service [SetInstances] makes of it. *)
Definition misfiled_calls : list table_call :=
  [ TableSet (Some {["x" := instA]}) ].
Definition misfiled_service : service :=
  {| instances := {["x" := instA]}; leaderID := ID instA;
     leaderIndex := Index instA; notifyLeader := true |}.

(** [SetInstances] with a nil map, then [AddInstance]. *)
Definition nil_map_calls : list table_call := [ TableSet None; TableAdd instA ].

Definition sample_mutations : list mutation :=
  [ MutAdd instB; MutAdd instA; MutRemove (ID instA);
    MutSet {[ID instB := instB; ID instC := instC]}; MutAdd instA ].

(** ** Iteration order of [range] over the other maps *)

(** The order in which [range] enumerates the registry's [services] map and
    the [eventKindStrings] table: any enumeration of the entries. *)
Class RangeOrder := {
  go_range : ∀ {K V} `{Countable K}, gmap K V → list (K * V);
  go_range_perm : ∀ {K V} `{Countable K} (m : gmap K V), go_range m ≡ₚ map_to_list m
}.

Definition canonical_order : RangeOrder :=
  {| go_range := λ K V _ _ m, map_to_list m;
     go_range_perm := λ K V _ _ m, reflexivity _ |}.

(** ** Event kinds as strings and as JSON *)

Definition eventKindStrings : gmap N string :=
  {[ EventKindUp := "up"; EventKindUpdate := "update"; EventKindDown := "down";
     EventKindLeader := "leader"; EventKindUnknown := "unknown" ]}.

(** [EventKind.String]; a missing key reads as the zero value. *)
Definition EventKind_String (k : EventKind) : string :=
  match eventKindStrings !! k with
  | Some s => s
  | None => default "" (eventKindStrings !! EventKindUnknown)
  end.

(** The JSON text of a name: the name between two double quotes. *)
Definition doubleQuote : string := String (ascii_of_N 34) EmptyString.
Definition jsonOf (s : string) : string := doubleQuote +:+ s +:+ doubleQuote.

(** The body of the loop of [init], on the two tables. *)
Definition initStep (tables : gmap N string * gmap string N) (ks : N * string)
  : gmap N string * gmap string N :=
  let json := jsonOf ks.2 in
  (<[ks.1 := json]> tables.1, <[json := ks.1]> tables.2).

Definition initTables (entries : list (N * string))
  : gmap N string * gmap string N :=
  foldl initStep (∅, ∅) entries.

Section EventKindJSON.
Context {O : RangeOrder}.

Definition eventKindMarshalJSON : gmap N string :=
  (initTables (go_range eventKindStrings)).1.
Definition eventKindUnmarshalJSON : gmap string N :=
  (initTables (go_range eventKindStrings)).2.

Definition MarshalJSON (k : EventKind) : string :=
  match eventKindMarshalJSON !! k with
  | Some data => data
  | None => default "" (eventKindMarshalJSON !! EventKindUnknown)
  end.

(** [UnmarshalJSON] stores through its receiver: the result is the kind
    held by [*k] afterwards. *)
Definition UnmarshalJSON (k : EventKind) (data : string) : EventKind :=
  match eventKindUnmarshalJSON !! data with
  | Some kind => kind
  | None => k
  end.
End EventKindJSON.

(** ** Service names *)

Inductive serviceNameError :=
| ErrUnsetService
| ErrInvalidService.

(** The test of [ValidServiceName] on one rune. *)
Definition notServiceRune (r : N) : bool :=
  ((r <? 97) || (122 <? r)) && ((r <? 48) || (57 <? r)) && negb (r =? 45).

Definition ValidServiceName (service : string) : option serviceNameError :=
  if String.eqb service "" then Some ErrUnsetService
  else if existsb notServiceRune (runes service) then Some ErrInvalidService
  else None.

(** ** Listing the services, and sequences of registry calls *)

Section Listing.
Context {O : RangeOrder}.

Definition ListServices : M (list string) :=
  svcs ← getServices; mret ((go_range svcs).*1).
End Listing.

Inductive call :=
| CallAddService (name : string)
| CallRemoveService (name : string)
| CallAddInstance (name : string) (inst : Instance)
| CallRemoveInstance (name id : string)
| CallSetService (name : string) (data : option (list Instance)).

(** The instances a call hands to the registry. *)
Definition call_instances (c : call) : list Instance :=
  match c with
  | CallAddInstance _ inst => [inst]
  | CallSetService _ (Some l) => l
  | _ => []
  end.

Section Calls.
Context {R : MapRange}.

Definition run_call (c : call) : M unit :=
  match c with
  | CallAddService name => AddService name
  | CallRemoveService name => RemoveService name
  | CallAddInstance name inst => State_AddInstance name inst
  | CallRemoveInstance name id => State_RemoveInstance name id
  | CallSetService name data => SetService name data
  end.

Definition run_calls (cs : list call) : M unit := forEach cs run_call.
End Calls.

(** [State.AddInstance] on the [*Instance] it is handed, which may be nil
    ([None]): once the service is looked up or created,
    [service.AddInstance] reads [inst.ID] through the nil pointer and
    panics, before any event. *)
Definition State_AddInstance_ptr (serviceName : string) (inst : option Instance)
  : M unit :=
  match inst with
  | Some i => State_AddInstance serviceName i
  | None => nilDeref
  end.

(** The event [AddInstance] and the diff of [SetService] emit for [inst]
    against the previously registered instances [old]. *)
Definition changeEvents (name : string) (old : gmap string Instance)
    (inst : Instance) : list Event :=
  match old !! ID inst with
  | None => [mkEvent name EventKindUp inst]
  | Some o => if Equal inst o then [] else [mkEvent name EventKindUpdate inst]
  end.

(** The event [broadcastLeader] emits for a service: the leader, when a
    notification is pending and the leader is stored. *)
Definition leaderEvents (name : string) (svc : service) : list Event :=
  match (service_BroadcastLeader svc).1 with
  | Some l => [mkEvent name EventKindLeader l]
  | None => []
  end.

(** No two stored instances share an index. *)
Definition distinct_indices (m : gmap string Instance) : Prop :=
  ∀ k1 k2 i1 i2, m !! k1 = Some i1 → m !! k2 = Some i2 →
                 Index i1 = Index i2 → k1 = k2.

(** No service of the registry holds a leader notification that was not
    broadcast. *)
Definition no_pending (st : State) : Prop :=
  map_Forall (λ _ svc, notifyLeader svc = false) (services st).

Definition calls_positive (cs : list call) : Prop :=
  Forall (λ c, Forall (λ i, 0 < Index i) (call_instances c)) cs.

(** Over all the instances handed in: [Index] determines [ID] and [ID]
    determines [Index]. *)
Definition calls_consistent (cs : list call) : Prop :=
  let handed := mjoin (call_instances <$> cs) in
  Forall (λ a, Forall (λ b, ID a = ID b ↔ Index a = Index b) handed) handed.

(** A decoder for the output of [hex_EncodeToString], used to state that
    the encoding loses nothing. *)
Definition hexValue (c : ascii) : N :=
  let n := N_of_ascii c in
  if (48 <=? n) && (n <=? 57) then n - 48 else n - 87.

Fixpoint hexDecode (s : string) : string :=
  match s with
  | String hi (String lo rest) =>
      String (ascii_of_N (16 * hexValue hi + hexValue lo)) (hexDecode rest)
  | _ => EmptyString
  end.

(** Sample calls: the scenario of a diffing [SetService]. *)
Definition instB_meta : Instance :=
  {| ID := ID instB; Addr := Addr instB; Proto := Proto instB;
     Meta := {["zone" := "b"]}; Index := Index instB |}.

Definition sample_calls : list call :=
  [ CallAddService "web"; CallAddInstance "web" instA; CallAddInstance "web" instB;
    CallSetService "web" (Some [instB_meta; instC]); CallRemoveInstance "web" (ID instA);
    CallAddService "db"; CallRemoveService "db" ].

(** An instance that registered before all the others. *)
Definition instD : Instance :=
  {| ID := "5c49f6f32a28e8f8edd008791f1ea69c"; Addr := "10.0.0.4:80";
     Proto := "http"; Meta := ∅; Index := 1 |}.

(** The registry after [AddService "web"], [AddInstance "web" instA] and
    [AddInstance "web" instB]. *)
Definition web_pair_service : service :=
  {| instances := {[ID instA := instA; ID instB := instB]}; leaderID := ID instA;
     leaderIndex := Index instA; notifyLeader := false |}.
Definition web_pair_state : State :=
  {| services := {["web" := web_pair_service]}; subscribers := ∅ |}.

(** * Properties *)

(** ** maybeSetLeader and the pending-notification flag *)

Lemma maybeSetLeader_instances inst s :
  instances (maybeSetLeader inst s) = instances s.
Proof. unfold maybeSetLeader. by destruct (adopts s inst). Qed.

Lemma adopts_true s inst :
  adopts s inst = true ↔ leaderIndex s = 0 ∨ Index inst < leaderIndex s.
Proof.
  unfold adopts. rewrite orb_true_iff, N.eqb_eq, N.ltb_lt. tauto.
Qed.

Lemma adopts_false s inst :
  adopts s inst = false ↔ 0 < leaderIndex s ∧ leaderIndex s ≤ Index inst.
Proof.
  unfold adopts. rewrite orb_false_iff, N.eqb_neq, N.ltb_ge. lia.
Qed.

(** C5, as stated, fails: with a notification already pending, adopting an
    instance that carries the leader's own ID leaves [notifyLeader] true
    although [leaderID] does not change. *)
Lemma C5_counterexample :
  adopts pending_service instA_reindexed = true ∧
  notifyLeader (maybeSetLeader instA_reindexed pending_service) = true ∧
  leaderID (maybeSetLeader instA_reindexed pending_service) = leaderID pending_service.
Proof. by vm_compute. Qed.

(** The state of the counterexample is the one [AddInstance instA] leaves a
    new service in, before any leader broadcast. *)
Example pending_service_reached :
  (service_AddInstance instA newService).2 = pending_service.
Proof. by vm_compute. Qed.

(** C5 (amended): when [maybeSetLeader inst] adopts [inst], [notifyLeader]
    is true afterwards iff it was already true before the call or the new
    [leaderID] differs from the previous one; so from a state with no
    notification pending it is true iff the [leaderID] changed.  When
    [inst] is not adopted the service, and with it [notifyLeader], is
    unchanged. *)
Theorem C5_maybeSetLeader_notify s inst :
  (adopts s inst = true →
     leaderID (maybeSetLeader inst s) = ID inst ∧
     leaderIndex (maybeSetLeader inst s) = Index inst ∧
     (notifyLeader (maybeSetLeader inst s) = true ↔
        notifyLeader s = true ∨ leaderID (maybeSetLeader inst s) ≠ leaderID s) ∧
     (notifyLeader s = false →
        (notifyLeader (maybeSetLeader inst s) = true ↔
           leaderID (maybeSetLeader inst s) ≠ leaderID s))) ∧
  (adopts s inst = false → maybeSetLeader inst s = s).
Proof.
  unfold maybeSetLeader. split; intros Had; rewrite Had; [|done]. simpl.
  assert (Hne : negb (String.eqb (ID inst) (leaderID s)) = true ↔ ID inst ≠ leaderID s).
  { rewrite negb_true_iff. destruct (String.eqb_spec (ID inst) (leaderID s)); naive_solver. }
  split; [done|]. split; [done|]. split.
  - rewrite orb_true_iff, Hne. tauto.
  - intros ->. apply Hne.
Qed.

Lemma pickLeaderFrom_instances l s :
  instances (pickLeaderFrom l s) = instances s.
Proof.
  revert s. induction l as [|kv l IH]; intros s; [done|].
  simpl. rewrite IH. apply maybeSetLeader_instances.
Qed.

(** ** Leader bookkeeping: the invariant of the service table *)

Section LeaderInvariant.
Variable P : Instance → N → Prop.
Hypothesis P_own : ∀ i, P i (Index i).

Lemma maybeSetLeader_step a s :
  instances s !! ID a = Some a → 0 < Index a →
  leaderIndex s = 0 ∨ led P s →
  led P (maybeSetLeader a s) ∧
  leaderIndex (maybeSetLeader a s) ≤ Index a ∧
  (0 < leaderIndex s → leaderIndex (maybeSetLeader a s) ≤ leaderIndex s).
Proof.
  intros Ha Hpos Hs. unfold maybeSetLeader.
  destruct (adopts s a) eqn:Had.
  - apply adopts_true in Had. unfold led. simpl.
    split; [split; [done|]; exists a; auto|]. lia.
  - apply adopts_false in Had. destruct Hs as [?|Hs]; [exfalso; lia|].
    split; [done|]. lia.
Qed.

Lemma pickLeaderFrom_spec l s :
  (∀ kv, kv ∈ l → instances s !! kv.1 = Some kv.2 ∧ ID kv.2 = kv.1 ∧ 0 < Index kv.2) →
  leaderIndex s = 0 ∨ led P s →
  instances (pickLeaderFrom l s) = instances s ∧
  (leaderIndex (pickLeaderFrom l s) = 0 ∨ led P (pickLeaderFrom l s)) ∧
  (led P s ∨ l ≠ [] → led P (pickLeaderFrom l s)) ∧
  (∀ kv, kv ∈ l → leaderIndex (pickLeaderFrom l s) ≤ Index kv.2) ∧
  (0 < leaderIndex s → leaderIndex (pickLeaderFrom l s) ≤ leaderIndex s).
Proof.
  revert s. induction l as [|[k a] l IH]; intros s Hl Hs; simpl.
  - split; [done|]. split; [done|]. split; [by intros [?|?]|].
    split; [|lia]. intros kv Hkv. by apply elem_of_nil in Hkv.
  - destruct (Hl (k, a)) as (Hka & Hid & Hpos); [left|]. simpl in *. subst k.
    destruct (maybeSetLeader_step a s Hka Hpos Hs) as (Hled & Hle & Hmono).
    destruct (IH (maybeSetLeader a s)) as (Hi & Hor & Hkeep & Hmin & Hdec).
    { intros kv Hkv. rewrite maybeSetLeader_instances. apply Hl. by right. }
    { by right. }
    pose proof Hled as [Hlt _].
    rewrite maybeSetLeader_instances in Hi. specialize (Hdec Hlt).
    split; [done|]. split; [done|]. split.
    { intros _. apply Hkeep. by left. }
    split.
    + intros kv [->|Hkv]%elem_of_cons; simpl; [lia|by apply Hmin].
    + intros Hs0. specialize (Hmono Hs0). lia.
Qed.

Section WithRange.
Context {R : MapRange}.

Lemma range_map_elem m k i : (k, i) ∈ range_map m ↔ m !! k = Some i.
Proof. rewrite (range_map_perm m). apply elem_of_map_to_list. Qed.

Lemma range_map_nil m : range_map m = [] ↔ m = ∅.
Proof.
  split.
  - intros Hnil. apply map_to_list_empty_iff. apply Permutation_nil_r.
    rewrite <- Hnil. symmetry. apply range_map_perm.
  - intros ->. apply Permutation_nil_r. rewrite range_map_perm.
    by rewrite map_to_list_empty.
Qed.

Lemma maybePickLeader_instances s :
  instances (maybePickLeader s) = instances s.
Proof. apply pickLeaderFrom_instances. Qed.

(** [maybePickLeader] from an unset or correctly set leader, over a map
    of well-formed entries, re-establishes the invariant. *)
Lemma maybePickLeader_inv s :
  entries_ok (instances s) →
  leaderIndex s = 0 ∨ led P s →
  leader_inv P (maybePickLeader s).
Proof.
  intros Hok Hs.
  destruct (pickLeaderFrom_spec (range_map (instances s)) s)
    as (Hi & Hor & Hne & Hmin & _); [|done|].
  { intros [k i] Hkv. apply range_map_elem in Hkv. simpl.
    destruct (Hok k i Hkv) as [-> ?]. done. }
  fold (maybePickLeader s) in *.
  split; [by rewrite Hi|]. rewrite Hi.
  destruct (decide (instances s = ∅)) as [He|He].
  - left. split; [done|].
    unfold maybePickLeader. apply range_map_nil in He. rewrite He. simpl.
    destruct Hs as [?|[Hlt (i & Hi' & _)]]; [done|].
    apply range_map_nil in He. rewrite He in Hi'. by rewrite lookup_empty in Hi'.
  - right. split.
    + apply Hne. right. by rewrite range_map_nil.
    + intros k j Hkj. apply (Hmin (k, j)). by apply range_map_elem.
Qed.

Lemma apply_mutation_inv s m :
  leader_inv P s → mutation_keyed m →
  Forall (λ i, 0 < Index i) (handed_in m) →
  replace_ok P s m →
  leader_inv P (apply_mutation s m).
Proof.
  intros [Hok Hs] Hkey Hpos Hrep. destruct m as [inst|id|data]; simpl.
  - (* AddInstance *)
    simpl in Hpos. rewrite Forall_singleton in Hpos.
    set (s1 := setInstancesField (<[ID inst:=inst]> (instances s)) s).
    assert (Hok1 : entries_ok (instances s1)).
    { apply map_Forall_insert_2; [by split|done]. }
    assert (Hin : instances s1 !! ID inst = Some inst) by apply lookup_insert_eq.
    assert (Hs1 : leaderIndex s1 = 0 ∨ led P s1).
    { destruct Hs as [[_ ?]|[[Hlt (o & Ho & HP)] _]]; [by left|right].
      split; [done|]. simpl.
      destruct (decide (ID inst = leaderID s)) as [Heq|Hne].
      - exists inst. rewrite <- Heq, lookup_insert_eq. split; [done|].
        eapply (Hrep inst o); [simpl; by left| by rewrite Heq |done].
      - exists o. by rewrite lookup_insert_ne. }
    destruct (maybeSetLeader_step inst s1 Hin Hpos Hs1) as (Hled & Hle & Hmono).
    split; [by rewrite maybeSetLeader_instances|]. right. split; [done|].
    rewrite maybeSetLeader_instances. intros k j Hkj. simpl in Hkj.
    destruct (decide (ID inst = k)) as [<-|Hne].
    + rewrite lookup_insert_eq in Hkj. by simplify_eq.
    + rewrite lookup_insert_ne in Hkj by done.
      destruct Hs as [[He _]|[[Hlt _] Hmin]].
      * rewrite He in Hkj. by rewrite lookup_empty in Hkj.
      * specialize (Hmin k j Hkj). specialize (Hmono Hlt). simpl in Hmono. lia.
  - (* RemoveInstance *)
    unfold service_RemoveInstance.
    destruct (instances s !! id) as [inst|] eqn:Hid; simpl; [|done].
    destruct (Hok id inst Hid) as [Hkid _].
    assert (Hokd : entries_ok (delete id (instances s))).
    { by apply map_Forall_delete. }
    destruct (String.eqb_spec (ID inst) (leaderID s)) as [Heq|Hne].
    + apply maybePickLeader_inv; [done|by left].
    + split; [done|]. right.
      destruct Hs as [[He _]|[[Hlt (o & Ho & HP)] Hmin]].
      { rewrite He in Hid. by rewrite lookup_empty in Hid. }
      split.
      * split; [done|]. exists o. simpl. rewrite lookup_delete_ne by congruence. done.
      * simpl. intros k j [_ Hkj]%lookup_delete_Some. by apply (Hmin k j).
  - (* SetInstances *)
    unfold service_SetInstances. simpl in Hkey.
    assert (Hokd : entries_ok data).
    { intros k i Hki. split; [by apply (Hkey k i)|].
      eapply (proj1 (Forall_forall _ _) Hpos).
      apply list_elem_of_fmap. exists (k, i). split; [done|].
      by apply elem_of_map_to_list. }
    apply maybePickLeader_inv; [done|].
    destruct (data !! leaderID s) as [d|] eqn:Hd; [|by left].
    destruct Hs as [[_ ?]|[[Hlt (o & Ho & HP)] _]]; [by left|right].
    split; [done|]. exists d. simpl. split; [done|].
    apply (Hrep d o); [|by rewrite (Hkey _ _ Hd)|done].
    simpl. apply list_elem_of_fmap. exists (leaderID s, d). split; [done|].
    by apply elem_of_map_to_list.
Qed.

Lemma newService_inv : leader_inv P newService.
Proof. split; [apply map_Forall_empty|]. by left. Qed.

(** With a leader set the lookup succeeds; without instances it fails. *)
Lemma leader_inv_Leader s :
  leader_inv P s → (Leader (Some s) = None ↔ instances s = ∅).
Proof.
  intros [_ [[He _]|[[_ (i & Hi & _)] _]]]; simpl.
  - rewrite He. by rewrite lookup_empty.
  - rewrite Hi. split; [done|]. intros He. rewrite He in Hi.
    by rewrite lookup_empty in Hi.
Qed.
End WithRange.
End LeaderInvariant.

(** ** Leader emptiness and minimality over mutation sequences *)

Section MutationSequences.
Context {R : MapRange}.

Lemma run_mutations_snoc ms m s :
  run_mutations (ms ++ [m]) s = apply_mutation (run_mutations ms s) m.
Proof. unfold run_mutations. by rewrite foldl_app. Qed.

Lemma run_mutations_inv_any ms s :
  leader_inv (λ _ _, True) s →
  positive_indices ms → Forall mutation_keyed ms →
  leader_inv (λ _ _, True) (run_mutations ms s).
Proof.
  revert s. induction ms as [|m ms IH]; intros s Hs Hpos Hkey; [done|].
  apply Forall_cons in Hpos as [Hp Hpos]. apply Forall_cons in Hkey as [Hk Hkey].
  simpl. apply IH; [|done|done].
  apply apply_mutation_inv; done.
Qed.

(** Every stored instance was handed in by some mutation. *)
Lemma run_mutations_handed ms k i :
  instances (run_mutations ms newService) !! k = Some i →
  i ∈ mjoin (handed_in <$> ms).
Proof.
  revert k i. induction ms as [|m ms IH] using rev_ind; intros k i.
  { simpl. by rewrite lookup_empty. }
  rewrite run_mutations_snoc, fmap_app, join_app. simpl. rewrite app_nil_r.
  rewrite elem_of_app. destruct m as [inst|id|data]; simpl.
  - rewrite maybeSetLeader_instances. simpl.
    destruct (decide (ID inst = k)) as [<-|Hne].
    + rewrite lookup_insert_eq. intros [= ->]. right. by left.
    + rewrite lookup_insert_ne by done. intros Hk. left. by eapply IH.
  - unfold service_RemoveInstance.
    destruct (instances _ !! id) as [inst|] eqn:Hid; simpl.
    + intros Hk. left. apply (IH k).
      destruct (String.eqb (ID inst) _).
      * rewrite maybePickLeader_instances in Hk. simpl in Hk.
        by apply lookup_delete_Some in Hk as [_ ?].
      * simpl in Hk. by apply lookup_delete_Some in Hk as [_ ?].
    + intros Hk. left. by apply (IH k).
  - unfold service_SetInstances. rewrite maybePickLeader_instances. simpl.
    intros Hk. right. apply list_elem_of_fmap. exists (k, i).
    split; [done|]. by apply elem_of_map_to_list.
Qed.

Lemma run_mutations_inv_exact ms :
  positive_indices ms → Forall mutation_keyed ms → consistent_indices ms →
  leader_inv (λ i n, Index i = n) (run_mutations ms newService).
Proof.
  induction ms as [|m ms IH] using rev_ind; intros Hpos Hkey Hcons.
  { apply newService_inv. }
  apply Forall_app in Hpos as [Hpos Hp]. apply Forall_app in Hkey as [Hkey Hk].
  rewrite Forall_singleton in Hp. rewrite Forall_singleton in Hk.
  unfold consistent_indices in Hcons. simpl in Hcons.
  rewrite fmap_app, join_app in Hcons. simpl in Hcons. rewrite app_nil_r in Hcons.
  assert (Hprev : consistent_indices ms).
  { unfold consistent_indices. simpl.
    apply Forall_app in Hcons as [Hcons _].
    eapply Forall_impl; [exact Hcons|]. simpl. intros a Ha.
    by apply Forall_app in Ha as [Ha _]. }
  specialize (IH Hpos Hkey Hprev).
  rewrite run_mutations_snoc. apply apply_mutation_inv; try done.
  intros i o n Hi Ho <-.
  destruct IH as [Hok _]. destruct (Hok _ _ Ho) as [Hid _].
  apply run_mutations_handed in Ho.
  rewrite Forall_forall in Hcons.
  assert (Hi' : i ∈ mjoin (handed_in <$> ms) ++ handed_in m)
    by (apply elem_of_app; by right).
  assert (Ho' : o ∈ mjoin (handed_in <$> ms) ++ handed_in m)
    by (apply elem_of_app; by left).
  specialize (Hcons i Hi'). rewrite Forall_forall in Hcons.
  by apply (Hcons o Ho').
Qed.

(** Emptiness, on the content of the table: positive indices and maps
    keyed by instance ID. *)
Lemma run_mutations_leader_none_iff_empty (ms : list mutation) :
  positive_indices ms → Forall mutation_keyed ms →
  Leader (Some (run_mutations ms newService)) = None ↔
  instances (run_mutations ms newService) = ∅.
Proof.
  intros Hpos Hkey. apply (leader_inv_Leader (λ _ _, True)).
  apply run_mutations_inv_any; [apply newService_inv|done|done].
Qed.

(** Minimality, on the content of the table: positive and consistent
    indices and maps keyed by instance ID. *)
Lemma run_mutations_leader_smallest (ms : list mutation) :
  positive_indices ms → Forall mutation_keyed ms → consistent_indices ms →
  instances (run_mutations ms newService) ≠ ∅ →
  ∃ l, Leader (Some (run_mutations ms newService)) = Some l ∧
       instances (run_mutations ms newService) !! ID l = Some l ∧
       ∀ k i, instances (run_mutations ms newService) !! k = Some i →
              i = l ∨ Index l < Index i.
Proof.
  intros Hpos Hkey Hcons Hne.
  pose proof (run_mutations_inv_exact ms Hpos Hkey Hcons) as [Hok Hs].
  destruct Hs as [[He _]|[[Hlt (l & Hl & Hidx)] Hmin]]; [done|].
  exists l. simpl. split; [done|].
  destruct (Hok _ _ Hl) as [Hlid _]. split; [by rewrite Hlid|].
  intros k i Hki. specialize (Hmin k i Hki).
  destruct (decide (Index i = Index l)) as [Heq|Hneq]; [left|right; lia].
  destruct (Hok _ _ Hki) as [Hiid _].
  pose proof (run_mutations_handed _ _ _ Hki) as Hi.
  pose proof (run_mutations_handed _ _ _ Hl) as Hl'.
  unfold consistent_indices in Hcons. simpl in Hcons.
  rewrite Forall_forall in Hcons. specialize (Hcons i Hi).
  rewrite Forall_forall in Hcons. apply (Hcons l Hl') in Heq.
  rewrite Hiid, Hlid in Heq. subst k. congruence.
Qed.
End MutationSequences.

(** Closed propositions over sample data are settled by their decision
    procedure. *)
Ltac by_decision :=
  match goal with
  | |- ?G => apply (bool_decide_unpack G); vm_compute; exact I
  end.

Lemma sample_mutations_positive : positive_indices sample_mutations.
Proof. unfold positive_indices. by_decision. Qed.

Lemma sample_mutations_keyed : Forall mutation_keyed sample_mutations.
Proof.
  unfold sample_mutations. repeat constructor.
  unfold keyedByID. by_decision.
Qed.

Lemma sample_mutations_consistent : consistent_indices sample_mutations.
Proof. unfold consistent_indices. cbv zeta. by_decision. Qed.

(** ** Leader emptiness and minimality over calls on the service table *)

Section TableSequences.
Context {R : MapRange}.

Lemma table_step_content t c t' :
  table_step t c = Some t' → t'.1 = apply_mutation t.1 (table_mutation c).
Proof.
  destruct c as [inst|id|data]; simpl; [destruct t.2|..]; try done;
    by intros [= <-].
Qed.

Lemma run_table_content cs t t' :
  run_table cs t = Some t' → t'.1 = run_mutations (table_mutation <$> cs) t.1.
Proof.
  revert t. induction cs as [|c cs IH]; intros t; simpl.
  - by intros [= <-].
  - destruct (table_step t c) as [t1|] eqn:Hstep; [|done].
    intros Hrun. rewrite (IH _ Hrun). by rewrite (table_step_content _ _ _ Hstep).
Qed.

(** Only [SetInstances] with a nil map can make a later call panic. *)
Lemma run_table_total cs s :
  Forall (λ c, c ≠ TableSet None) cs → is_Some (run_table cs (s, false)).
Proof.
  revert s. induction cs as [|c cs IH]; intros s Hcs; [by eexists|].
  apply Forall_cons in Hcs as [Hc Hcs]. simpl.
  destruct c as [inst|id|[data|]]; simpl; try (by apply IH). done.
Qed.

(** C4 (amended): after any sequence of [AddInstance], [RemoveInstance] and
    [SetInstances] calls on a new service that runs to its end, in which
    every instance handed in has a strictly positive [Index] and every map
    handed to [SetInstances] is keyed by instance ID, [Leader] returns none
    if and only if the instance map is empty.  A sequence that hands no nil
    map to [SetInstances] always runs to its end. *)
Theorem C4_leader_none_iff_empty (cs : list table_call) :
  positive_indices (table_mutation <$> cs) →
  Forall mutation_keyed (table_mutation <$> cs) →
  (∀ s isNil, run_table cs (newService, false) = Some (s, isNil) →
     (Leader (Some s) = None ↔ instances s = ∅)) ∧
  (Forall (λ c, c ≠ TableSet None) cs →
   is_Some (run_table cs (newService, false))).
Proof.
  intros Hpos Hkey. split; [|apply run_table_total].
  intros s isNil Hrun. apply run_table_content in Hrun. simpl in Hrun. subst s.
  by apply run_mutations_leader_none_iff_empty.
Qed.

(** C3 (amended): after any sequence of [AddInstance], [RemoveInstance] and
    [SetInstances] calls on a new service that runs to its end, in which
    every instance handed in has a strictly positive [Index], indices are
    unique, no ID comes back with a different [Index], and every map handed
    to [SetInstances] is keyed by instance ID, a service with at least one
    instance has a leader, the leader is one of its instances, and every
    other instance has a strictly larger [Index].  A sequence that hands no
    nil map to [SetInstances] always runs to its end. *)
Theorem C3_leader_has_smallest_index (cs : list table_call) :
  positive_indices (table_mutation <$> cs) →
  Forall mutation_keyed (table_mutation <$> cs) →
  consistent_indices (table_mutation <$> cs) →
  (∀ s isNil, run_table cs (newService, false) = Some (s, isNil) →
     instances s ≠ ∅ →
     ∃ l, Leader (Some s) = Some l ∧
          instances s !! ID l = Some l ∧
          ∀ k i, instances s !! k = Some i → i = l ∨ Index l < Index i) ∧
  (Forall (λ c, c ≠ TableSet None) cs →
   is_Some (run_table cs (newService, false))).
Proof.
  intros Hpos Hkey Hcons. split; [|apply run_table_total].
  intros s isNil Hrun. apply run_table_content in Hrun. simpl in Hrun. subst s.
  by apply run_mutations_leader_smallest.
Qed.
End TableSequences.

Lemma C4_witness :
  (∀ s isNil,
     run_table (R:=canonical_range) sample_table_calls (newService, false) = Some (s, isNil) →
     (Leader (Some s) = None ↔ instances s = ∅)) ∧
  (Forall (λ c, c ≠ TableSet None) sample_table_calls →
   is_Some (run_table (R:=canonical_range) sample_table_calls (newService, false))).
Proof.
  apply (@C4_leader_none_iff_empty canonical_range sample_table_calls).
  - exact sample_mutations_positive.
  - exact sample_mutations_keyed.
Defined.

Lemma C3_witness :
  (∀ s isNil,
     run_table (R:=canonical_range) sample_table_calls (newService, false) = Some (s, isNil) →
     instances s ≠ ∅ →
     ∃ l, Leader (Some s) = Some l ∧
          instances s !! ID l = Some l ∧
          ∀ k i, instances s !! k = Some i → i = l ∨ Index l < Index i) ∧
  (Forall (λ c, c ≠ TableSet None) sample_table_calls →
   is_Some (run_table (R:=canonical_range) sample_table_calls (newService, false))).
Proof.
  apply (@C3_leader_has_smallest_index canonical_range sample_table_calls).
  - exact sample_mutations_positive.
  - exact sample_mutations_keyed.
  - exact sample_mutations_consistent.
Defined.

(** C4, as stated, fails: [SetInstances] with a map that files [instA],
    of positive index, under a key that is not its ID leaves a service
    that stores an instance and whose [Leader] is none. *)
Lemma C4_counterexample :
  positive_indices (table_mutation <$> misfiled_calls) ∧
  run_table (R:=canonical_range) misfiled_calls (newService, false)
    = Some (misfiled_service, false) ∧
  instances misfiled_service !! "x" = Some instA ∧
  Leader (Some misfiled_service) = None.
Proof.
  split; [unfold positive_indices; by_decision|]. by vm_compute.
Qed.

(** C3, as stated, fails on the same call: the index is positive, there is
    one instance only, so indices are unique and no ID comes back, the
    service stores the instance, and [Leader] returns none instead of it. *)
Lemma C3_counterexample :
  positive_indices (table_mutation <$> misfiled_calls) ∧
  consistent_indices (table_mutation <$> misfiled_calls) ∧
  run_table (R:=canonical_range) misfiled_calls (newService, false)
    = Some (misfiled_service, false) ∧
  size (instances misfiled_service) = 1%nat ∧
  Leader (Some misfiled_service) = None.
Proof.
  split; [unfold positive_indices; by_decision|].
  split; [unfold consistent_indices; cbv zeta; by_decision|]. by vm_compute.
Qed.

(** The sample calls run to their end and elect [instA]; [AddInstance]
    after [SetInstances] with a nil map panics. *)
Example sample_table_calls_run :
  ∃ s, run_table (R:=canonical_range) sample_table_calls (newService, false)
         = Some (s, false) ∧
       Leader (Some s) = Some instA.
Proof. eexists. split; by vm_compute. Qed.

Example nil_map_calls_panic :
  run_table (R:=canonical_range) nil_map_calls (newService, false) = None.
Proof. reflexivity. Qed.

Example sample_mutations_leader :
  Leader (Some (run_mutations (R:=canonical_range) sample_mutations newService)) = Some instA.
Proof. by vm_compute. Qed.

(** ** Registry mutations and their events *)

Lemma forEach_broadcast {A} (f : A → Event) (l : list A) st :
  forEach l (λ a, broadcast (f a)) st = Ok () st (f <$> l).
Proof.
  induction l as [|a l IH]; [done|].
  simpl. unfold mbind, M_bind. simpl. by rewrite IH.
Qed.

Lemma forEach_when_broadcast {A} (c : A → bool) (f : A → Event) (l : list A) st :
  forEach l (λ a, when (c a) (broadcast (f a))) st = Ok () st (f <$> List.filter c l).
Proof.
  induction l as [|a l IH]; [done|].
  simpl. unfold mbind, M_bind. destruct (c a); simpl; by rewrite IH.
Qed.

Section RegistryFacts.
Context {R : MapRange}.

Lemma broadcastLeader_unknown name st :
  services st !! name = None → broadcastLeader name st = Panic [].
Proof. intros H. unfold broadcastLeader, mbind, M_bind. simpl. by rewrite H. Qed.

Lemma RemoveService_unknown name st :
  services st !! name = None → RemoveService name st = Panic [].
Proof. intros H. unfold RemoveService, mbind, M_bind. simpl. by rewrite H. Qed.

Lemma SetService_nil_unknown name st :
  services st !! name = None → SetService name None st = Panic [].
Proof.
  intros H. unfold SetService, mbind, M_bind. simpl. rewrite H. simpl.
  rewrite broadcastLeader_unknown; [done|]. simpl. apply lookup_delete_eq.
Qed.

Lemma broadcastLeader_known name st svc :
  services st !! name = Some svc →
  broadcastLeader name st =
    Ok () {| services := <[name := (service_BroadcastLeader svc).2]> (services st);
             subscribers := subscribers st |}
       (match (service_BroadcastLeader svc).1 with
        | Some l => [mkEvent name EventKindLeader l]
        | None => []
        end).
Proof.
  intros H. unfold broadcastLeader, mbind, M_bind. simpl. rewrite H.
  destruct (service_BroadcastLeader svc) as [[l|] svc']; done.
Qed.

Lemma broadcastLeader_events name st st' evs :
  broadcastLeader name st = Ok () st' evs →
  Forall (λ e, Kind e = EventKindLeader) evs ∧ (length evs ≤ 1)%nat.
Proof.
  destruct (services st !! name) as [svc|] eqn:H.
  - rewrite (broadcastLeader_known _ _ _ H). intros [= _ <-].
    destruct (service_BroadcastLeader svc).1; simpl; split; auto with lia.
  - by rewrite (broadcastLeader_unknown _ _ H).
Qed.

Lemma SetService_nil_known name st svc :
  services st !! name = Some svc →
  SetService name None st =
    Ok () {| services := delete name (services st); subscribers := subscribers st |}
       ((λ kv, mkEvent name EventKindDown kv.2) <$> range_map (instances svc)).
Proof.
  intros H. unfold SetService, mbind, M_bind. simpl. rewrite H. simpl.
  rewrite forEach_when_broadcast. simpl. f_equal. f_equal.
  rewrite app_nil_r. f_equal.
  induction (range_map (instances svc)) as [|kv l IH]; [done|].
  simpl. rewrite lookup_empty. simpl. by rewrite IH.
Qed.
End RegistryFacts.

(** C1, as stated, fails: [SetService "web" nil] on a registry where [web]
    holds [instA] deletes the entry and broadcasts a [down] event for
    [instA]. *)
Lemma C1_counterexample :
  SetService (R:=canonical_range) "web" None web_state =
    Ok () NewState [mkEvent "web" EventKindDown instA].
Proof. by vm_compute. Qed.

(** C1 (amended): for every registry in which the service [name] exists,
    [SetService name nil] deletes the service entry and emits exactly one
    [down] event per previously registered instance, and no other event. *)
Theorem C1_SetService_nil_emits_down {R : MapRange} name st svc :
  services st !! name = Some svc →
  ∃ evs,
    SetService name None st =
      Ok () {| services := delete name (services st); subscribers := subscribers st |} evs ∧
    evs ≡ₚ (λ kv, mkEvent name EventKindDown kv.2) <$> map_to_list (instances svc).
Proof.
  intros H. eexists. split; [by apply SetService_nil_known|].
  by rewrite range_map_perm.
Qed.

Lemma C1_witness :
  ∃ evs,
    SetService (R:=canonical_range) "web" None web_state =
      Ok () {| services := delete "web" (services web_state);
               subscribers := subscribers web_state |} evs ∧
    evs ≡ₚ (λ kv, mkEvent "web" EventKindDown kv.2) <$> map_to_list (instances web_service).
Proof.
  apply (@C1_SetService_nil_emits_down canonical_range "web" web_state web_service).
  reflexivity.
Defined.

(** C2 fails on the code: on a registry that does not hold the name,
    [RemoveService] dereferences the nil [*service] it reads from the map,
    and [SetService] with a nil list reaches [broadcastLeader], which calls
    [BroadcastLeader] on the nil [*service]; both panic. *)
Theorem C2_unknown_name_panics :
  RemoveService (R:=canonical_range) "web" NewState = Panic [] ∧
  SetService (R:=canonical_range) "web" None NewState = Panic [].
Proof. split; [by apply RemoveService_unknown|by apply SetService_nil_unknown]. Qed.

(** ** Equality of instances *)

Lemma mapEqual_true x y : mapEqual x y = true ↔ x = y.
Proof.
  unfold mapEqual. split.
  - destruct (Nat.eqb_spec (size x) (size y)) as [Hsz|]; [simpl|done].
    intros Hall. apply map_subseteq_size_eq; [|lia].
    apply map_subseteq_spec. intros k v Hkv.
    rewrite forallb_forall in Hall.
    specialize (Hall (k, v)). simpl in Hall.
    eapply bool_decide_eq_true_1, Hall, list_elem_of_In.
    by apply elem_of_map_to_list.
  - intros ->. rewrite Nat.eqb_refl. simpl.
    apply forallb_forall. intros [k v] Hkv%list_elem_of_In.
    apply bool_decide_eq_true_2. by apply elem_of_map_to_list.
Qed.

(** [Equal] compares [Addr], [Proto] and [Meta], neither [ID] nor [Index]. *)
Lemma Equal_true a b :
  Equal a b = true ↔ Addr a = Addr b ∧ Proto a = Proto b ∧ Meta a = Meta b.
Proof.
  unfold Equal. rewrite !andb_true_iff, !String.eqb_eq, mapEqual_true. tauto.
Qed.

(** ** SetService on a new name, AddInstance on a registered instance *)

Lemma indexByID_snoc l a : indexByID (l ++ [a]) = <[ID a := a]> (indexByID l).
Proof. unfold indexByID. by rewrite foldl_app. Qed.

(** [newData] keeps, for each ID, the last list element that carries it. *)
Lemma indexByID_lookup l id :
  indexByID l !! id = last (filter (λ i, ID i = id) l).
Proof.
  induction l as [|a l IH] using rev_ind; [done|].
  rewrite indexByID_snoc, filter_app, filter_cons, filter_nil.
  destruct (decide (ID a = id)) as [<-|Hne].
  - by rewrite lookup_insert_eq, last_snoc.
  - by rewrite lookup_insert_ne, app_nil_r.
Qed.

(** The map [SetService] hands to [SetInstances] is keyed by instance ID. *)
Lemma indexByID_keyed l : keyedByID (indexByID l).
Proof.
  induction l as [|a l IH] using rev_ind; [apply map_Forall_empty|].
  rewrite indexByID_snoc. by apply map_Forall_insert_2.
Qed.

Section RegistryEvents.
Context {R : MapRange}.

Lemma service_SetInstances_instances data s :
  instances (service_SetInstances data s) = data.
Proof. unfold service_SetInstances. by rewrite maybePickLeader_instances. Qed.

(** C9: when [name] is not in the registry, [SetService name list] with a
    non-nil list returns, emits one [up] event per list element, in list
    order, followed only by the leader broadcast, and the service it
    creates stores, for each ID, the last list element that carries it;
    so an ID that occurs several times yields several [up] events for a
    single stored instance. *)
Theorem C9_SetService_new_duplicates name (l : list Instance) st :
  services st !! name = None →
  ∃ st' svc leaderEvs,
    SetService name (Some l) st =
      Ok () st' (((λ inst, mkEvent name EventKindUp inst) <$> l) ++ leaderEvs) ∧
    Forall (λ e, Kind e = EventKindLeader) leaderEvs ∧
    services st' !! name = Some svc ∧
    ∀ id, instances svc !! id = last (filter (λ i, ID i = id) l).
Proof.
  intros H. unfold SetService, mbind, M_bind. simpl. rewrite H. simpl.
  rewrite forEach_broadcast.
  set (svc := service_SetInstances (indexByID l) newService).
  set (st1 := {| services := <[name:=svc]> (services st);
                 subscribers := subscribers st |}).
  assert (H1 : services st1 !! name = Some svc) by apply lookup_insert_eq.
  rewrite (broadcastLeader_known _ _ _ H1).
  eexists _, (service_BroadcastLeader svc).2, _. split; [reflexivity|].
  split; [|split].
  - destruct (service_BroadcastLeader svc).1; by repeat constructor.
  - simpl. apply lookup_insert_eq.
  - intros id. rewrite <- indexByID_lookup.
    unfold service_BroadcastLeader. destruct (notifyLeader svc); simpl;
      unfold svc; by rewrite service_SetInstances_instances.
Qed.

(** C6: when [A] is the instance registered in service [name] under the
    ID of [A'], and [A'] agrees with [A] on [Addr], [Proto] and [Meta],
    [State.AddInstance name A'] returns and emits neither an [up] nor an
    [update] event, whatever the [Index] of [A']; the only event it can
    emit is the [leader] event of the leader broadcast. *)
Theorem C6_AddInstance_reindexed_silent name (A A' : Instance) st svc :
  services st !! name = Some svc →
  instances svc !! ID A' = Some A →
  Addr A' = Addr A → Proto A' = Proto A → Meta A' = Meta A →
  ∃ st' evs,
    State_AddInstance name A' st = Ok () st' evs ∧
    Forall (λ e, Kind e ≠ EventKindUp ∧ Kind e ≠ EventKindUpdate) evs ∧
    Forall (λ e, Kind e = EventKindLeader) evs.
Proof.
  intros Hsvc HA Haddr Hproto Hmeta.
  assert (Heq : Equal A' A = true) by (by apply Equal_true).
  unfold State_AddInstance, mbind, M_bind. simpl. rewrite Hsvc. simpl.
  rewrite HA, Heq. simpl.
  set (svc1 := maybeSetLeader A' _).
  set (st1 := {| services := <[name:=svc1]> (services st);
                 subscribers := subscribers st |}).
  assert (H1 : services st1 !! name = Some svc1) by apply lookup_insert_eq.
  rewrite (broadcastLeader_known _ _ _ H1).
  eexists _, _. split; [reflexivity|].
  destruct (service_BroadcastLeader svc1).1; split; by repeat constructor.
Qed.
End RegistryEvents.

Lemma C9_witness :
  ∃ st' svc leaderEvs,
    SetService (R:=canonical_range) "web" (Some [instA; instB; instA_reindexed]) NewState =
      Ok () st' (((λ inst, mkEvent "web" EventKindUp inst) <$> [instA; instB; instA_reindexed])
                 ++ leaderEvs) ∧
    Forall (λ e, Kind e = EventKindLeader) leaderEvs ∧
    services st' !! "web" = Some svc ∧
    ∀ id, instances svc !! id = last (filter (λ i, ID i = id) [instA; instB; instA_reindexed]).
Proof.
  apply (@C9_SetService_new_duplicates canonical_range "web"
           [instA; instB; instA_reindexed] NewState).
  reflexivity.
Defined.

Lemma C6_witness :
  ∃ st' evs,
    State_AddInstance "web" instA_reindexed web_state = Ok () st' evs ∧
    Forall (λ e, Kind e ≠ EventKindUp ∧ Kind e ≠ EventKindUpdate) evs ∧
    Forall (λ e, Kind e = EventKindLeader) evs.
Proof.
  apply (C6_AddInstance_reindexed_silent "web" instA instA_reindexed
           web_state web_service); reflexivity.
Defined.

(** On the samples: three [up] events for two stored instances, and a
    re-registration that only changes the leader's index is silent. *)
Example SetService_new_duplicates_run :
  ∃ st',
    SetService (R:=canonical_range) "web" (Some [instA; instB; instA_reindexed]) NewState =
      Ok () st' [ mkEvent "web" EventKindUp instA; mkEvent "web" EventKindUp instB;
                  mkEvent "web" EventKindUp instA_reindexed;
                  mkEvent "web" EventKindLeader instA_reindexed ] ∧
    (instances <$> services st' !! "web") =
      Some {[ID instA := instA_reindexed; ID instB := instB]}.
Proof. eexists. split; by vm_compute. Qed.

Example AddInstance_reindexed_run :
  ∃ st', State_AddInstance "web" instA_reindexed web_state = Ok () st' [].
Proof. eexists. by vm_compute. Qed.

(** ** Subscribe: the snapshot sent on the channel *)

Section SubscribeFacts.
Context {R : MapRange}.

Lemma getLocked_perm service st :
  getLocked service (services st) ≡ₚ (map_to_list (registered st service)).*2.
Proof.
  unfold getLocked, registered. destruct (services st !! service) as [svc|]; simpl.
  - by rewrite range_map_perm.
  - by rewrite map_to_list_empty.
Qed.

(** C7: [Subscribe] returns, broadcasts nothing, appends the subscription
    to the subscriber list of the service, and sends on [ch] a snapshot
    [ups ++ leaders].  With [sendCurrent] true and [kinds] intersecting
    {up, update, leader}: [ups] is one [up] event per registered instance
    when [kinds] intersects {up, update} and empty otherwise, and
    [leaders] is the single [leader] event of the current leader when
    [kinds] includes leader and a leader exists, and empty otherwise.
    With [sendCurrent] false, or [kinds] disjoint from
    {up, update, leader}, nothing is sent. *)
Theorem C7_Subscribe_snapshot service (sendCurrent : bool) kinds ch st :
  ∃ ups leaders,
    Subscribe service sendCurrent kinds ch st =
      Ok (mkSubscription kinds ch service, ups ++ leaders)
         {| services := services st;
            subscribers :=
              <[service := default [] (subscribers st !! service)
                             ++ [mkSubscription kinds ch service]]> (subscribers st) |}
         [] ∧
    (sendCurrent = true ∧ N.land kinds snapshotKinds ≠ 0 →
       (N.land kinds instanceKinds ≠ 0 →
          ups ≡ₚ (λ inst, mkEvent service EventKindUp inst)
                   <$> (map_to_list (registered st service)).*2) ∧
       (N.land kinds instanceKinds = 0 → ups = []) ∧
       (∀ l, N.land kinds EventKindLeader ≠ 0 →
             Leader (services st !! service) = Some l →
             leaders = [mkEvent service EventKindLeader l]) ∧
       (N.land kinds EventKindLeader = 0 ∨ Leader (services st !! service) = None →
          leaders = [])) ∧
    (sendCurrent = false ∨ N.land kinds snapshotKinds = 0 →
       ups = [] ∧ leaders = []).
Proof.
  unfold Subscribe, mbind, M_bind. simpl.
  fold snapshotKinds instanceKinds.
  eexists _, _. split; [reflexivity|].
  destruct (N.eqb_spec (N.land kinds snapshotKinds) 0) as [Hs|Hs];
    destruct (N.eqb_spec (N.land kinds instanceKinds) 0) as [Hi|Hi];
    destruct (N.eqb_spec (N.land kinds EventKindLeader) 0) as [Hl|Hl];
    destruct sendCurrent; simpl;
    (split; [intros [? ?]; try done|intros [?|?]; try done]).
  all: try (destruct (Leader (services st !! service)); done).
  all: split; [intros ?; try done; by rewrite getLocked_perm|].
  all: split; [intros ?; done|].
  all: split; [intros l ? Hlead; try done; by rewrite Hlead|].
  all: intros [?|Hnone]; [try done; by destruct (Leader _)|by rewrite Hnone].
Qed.

(** C10: for a name that is not in the registry, [Subscribe] with
    [sendCurrent] true returns without panic and sends no snapshot event,
    whatever the kinds: [getLocked] yields no instance and [Leader] on the
    nil [*service] yields none. *)
Theorem C10_Subscribe_unknown_service name kinds ch st :
  services st !! name = None →
  getLocked name (services st) = [] ∧
  Leader (services st !! name) = None ∧
  Subscribe name true kinds ch st =
    Ok (mkSubscription kinds ch name, [])
       {| services := services st;
          subscribers :=
            <[name := default [] (subscribers st !! name)
                        ++ [mkSubscription kinds ch name]]> (subscribers st) |}
       [].
Proof.
  intros H. unfold Subscribe, getLocked, mbind, M_bind. simpl. rewrite H. simpl.
  split; [done|]. split; [done|].
  by repeat destruct (_ =? _).
Qed.
End SubscribeFacts.

Lemma C10_witness :
  getLocked (R:=canonical_range) "web" (services NewState) = [] ∧
  Leader (services NewState !! "web") = None ∧
  Subscribe (R:=canonical_range) "web" true 15 0%nat NewState =
    Ok (mkSubscription 15 0%nat "web", [])
       {| services := services NewState;
          subscribers :=
            <["web" := default [] (subscribers NewState !! "web")
                         ++ [mkSubscription 15 0%nat "web"]]> (subscribers NewState) |}
       [].
Proof.
  apply (@C10_Subscribe_unknown_service canonical_range "web" 15 0%nat NewState).
  reflexivity.
Defined.

Example Subscribe_web_all :
  ∃ sub st', Subscribe (R:=canonical_range) "web" true 15 0%nat web_state =
    Ok (sub, [mkEvent "web" EventKindUp instA; mkEvent "web" EventKindLeader instA]) st' [].
Proof. eexists _, _. by vm_compute. Qed.

(** ** Validation *)

Lemma notLowerAlnum_false r :
  notLowerAlnum r = false ↔ 97 ≤ r ≤ 122 ∨ 48 ≤ r ≤ 57.
Proof.
  unfold notLowerAlnum.
  rewrite andb_false_iff, !orb_false_iff, !N.ltb_ge. lia.
Qed.

Lemma notLowerAlnum_high r : 0x7F < r → notLowerAlnum r = true.
Proof.
  intros Hr. destruct (notLowerAlnum r) eqn:H; [done|].
  apply notLowerAlnum_false in H. lia.
Qed.

(** The decoder never yields an ASCII rune. *)
Lemma decoderune_high s : 0x7F < (decoderune s).1.
Proof.
  unfold decoderune.
  repeat match goal with
         | |- context [match ?l with [] => _ | _ :: _ => _ end] => destruct l
         | |- context [if ?c then _ else _] => destruct c eqn:?
         end; cbn [fst]; try done.
  all: repeat match goal with
         | H : _ && _ = true |- _ => apply andb_true_iff in H as [? ?]
         | H : (_ <? _) = true |- _ => apply N.ltb_lt in H
         end.
  all: lia.
Qed.

Arguments decoderune : simpl never.

Lemma runesFrom_existsb fuel s :
  (length s ≤ fuel)%nat →
  existsb notLowerAlnum (runesFrom fuel s) = existsb notLowerAlnum s.
Proof.
  revert s. induction fuel as [|fuel IH]; intros [|b s] Hlen; simpl in *; try done; [lia|].
  destruct (N.ltb_spec b 0x80) as [Hb|Hb]; simpl.
  - rewrite drop_0. rewrite IH by lia. done.
  - rewrite (notLowerAlnum_high b) by lia.
    rewrite notLowerAlnum_high; [done|]. apply decoderune_high.
Qed.

Lemma runes_lowerAlnum s :
  existsb notLowerAlnum (runes s) = false ↔ lowerAlnumString s.
Proof.
  unfold runes, lowerAlnumString. rewrite runesFrom_existsb by done.
  induction (bytesOf s) as [|b l IH]; simpl.
  - split; [constructor|done].
  - rewrite orb_false_iff, Forall_cons, IH, notLowerAlnum_false. done.
Qed.

Lemma hexDigit_lowercase n : hexDigit n ∈ hextable.
Proof.
  unfold hexDigit. apply list_elem_of_In.
  destruct (nth_in_or_default (N.to_nat n) hextable "0"%char) as [?| ->]; [done|].
  by left.
Qed.

Lemma hex_EncodeToString_lowercase src :
  Forall (λ c, c ∈ hextable) (String.list_ascii_of_string (hex_EncodeToString src)) ∧
  String.length (hex_EncodeToString src) = (2 * String.length src)%nat.
Proof.
  induction src as [|b rest [IH1 IH2]]; simpl; [by split|].
  split; [by repeat (constructor; [apply hexDigit_lowercase|])|]. lia.
Qed.

(** Each conjunct compares the error returned with one error kind. *)
Ltac valid_cases :=
  repeat split; intros;
  repeat match goal with
         | H : _ ∧ _ |- _ => destruct H
         | H : ∃ _, _ |- _ => destruct H
         end;
  simplify_eq; eauto.

Section ValidationFacts.
Variable SplitHostPort : string → (string * string) + AddrError.
Variable md5_Sum : string → string.

Lemma validProto_cases inst :
  (Proto inst = "" ∧ validProto inst = Some ErrUnsetProto) ∨
  (Proto inst ≠ "" ∧ ¬ lowerAlnumString (Proto inst) ∧
     validProto inst = Some ErrInvalidProto) ∨
  (Proto inst ≠ "" ∧ lowerAlnumString (Proto inst) ∧ validProto inst = None).
Proof.
  unfold validProto.
  destruct (String.eqb_spec (Proto inst) "") as [He|He]; [by left|right].
  destruct (existsb notLowerAlnum (runes (Proto inst))) eqn:Hex.
  - left. split; [done|]. split; [|done].
    intros Hok%runes_lowerAlnum. congruence.
  - right. by rewrite <- runes_lowerAlnum.
Qed.

(** C8: [Valid] succeeds iff [Proto] is a non-empty string of lowercase
    ASCII letters and digits, [net.SplitHostPort] accepts [Addr], and [ID]
    is the lowercase hex encoding of the MD5 digest of
    [Proto + "-" + Addr].  Otherwise it returns the error of the first
    failing check, in that order: [ErrUnsetProto], [ErrInvalidProto], the
    address error of [net.SplitHostPort], or the formatted ID-mismatch
    error; the four are different kinds of error. *)
Theorem C8_Valid_checks inst :
  let expected := hex_EncodeToString (md5_Sum (Proto inst +:+ "-" +:+ Addr inst)) in
  (Valid SplitHostPort md5_Sum inst = None ↔
     Proto inst ≠ "" ∧ lowerAlnumString (Proto inst) ∧
     (∃ hp, SplitHostPort (Addr inst) = inl hp) ∧
     ID inst = expected) ∧
  (Valid SplitHostPort md5_Sum inst = Some ErrUnsetProto ↔ Proto inst = "") ∧
  (Valid SplitHostPort md5_Sum inst = Some ErrInvalidProto ↔
     Proto inst ≠ "" ∧ ¬ lowerAlnumString (Proto inst)) ∧
  (∀ e, Valid SplitHostPort md5_Sum inst = Some (ErrAddr e) ↔
     Proto inst ≠ "" ∧ lowerAlnumString (Proto inst) ∧
     SplitHostPort (Addr inst) = inr e) ∧
  (∀ msg, Valid SplitHostPort md5_Sum inst = Some (Errorf msg) ↔
     Proto inst ≠ "" ∧ lowerAlnumString (Proto inst) ∧
     (∃ hp, SplitHostPort (Addr inst) = inl hp) ∧
     ID inst ≠ expected ∧
     msg = "discoverd: instance id is incorrect, expected " +:+ expected).
Proof.
  intros expected. unfold Valid, instance_id, md5sum. fold expected.
  destruct (validProto_cases inst) as [(He & ->)|[(Hne & Hbad & ->)|(Hne & Hok & ->)]].
  - valid_cases.
  - valid_cases.
  - destruct (SplitHostPort (Addr inst)) as [hp|e] eqn:Hsplit.
    + destruct (String.eqb_spec (ID inst) expected) as [Hid|Hid]; simpl; valid_cases.
    + valid_cases.
Qed.
End ValidationFacts.

Example validProto_http :
  validProto instA = None.
Proof. reflexivity. Qed.

Example validProto_unset :
  validProto (mkInstance "" "10.0.0.1:80" "" ∅ 1) = Some ErrUnsetProto.
Proof. reflexivity. Qed.

Example validProto_uppercase :
  validProto (mkInstance "" "10.0.0.1:80" "HTTP" ∅ 1) = Some ErrInvalidProto.
Proof. reflexivity. Qed.

(** A two-byte rune ([0xC3 0xA9]) is one rune, not a lowercase letter. *)
Example runes_two_byte :
  runesFrom 3 [104; 0xC3; 0xA9] = [104; 0xE9].
Proof. reflexivity. Qed.

Example hex_EncodeToString_bytes :
  hex_EncodeToString (String (ascii_of_N 0x0a) (String (ascii_of_N 0xff) "")) = "0aff".
Proof. reflexivity. Qed.

(** * Further properties of the code *)

(** ** Service names *)

Lemma runesFrom_existsb_high (p : N → bool) fuel s :
  (∀ r, 0x7F < r → p r = true) →
  (length s ≤ fuel)%nat →
  existsb p (runesFrom fuel s) = existsb p s.
Proof.
  intros Hp. revert s.
  induction fuel as [|fuel IH]; intros [|b s] Hlen; simpl in *; try done; [lia|].
  destruct (N.ltb_spec b 0x80) as [Hb|Hb]; simpl.
  - rewrite drop_0. by rewrite IH by lia.
  - rewrite (Hp b) by lia. rewrite Hp; [done|]. apply decoderune_high.
Qed.

Lemma notServiceRune_false r :
  notServiceRune r = false ↔ 97 ≤ r ≤ 122 ∨ 48 ≤ r ≤ 57 ∨ r = 45.
Proof.
  unfold notServiceRune.
  rewrite !andb_false_iff, !orb_false_iff, !N.ltb_ge, negb_false_iff, N.eqb_eq. lia.
Qed.

Lemma ValidServiceName_cases service :
  (service = "" ∧ ValidServiceName service = Some ErrUnsetService) ∨
  (service ≠ "" ∧
   ¬ Forall (λ b, 97 ≤ b ≤ 122 ∨ 48 ≤ b ≤ 57 ∨ b = 45) (bytesOf service) ∧
   ValidServiceName service = Some ErrInvalidService) ∨
  (service ≠ "" ∧
   Forall (λ b, 97 ≤ b ≤ 122 ∨ 48 ≤ b ≤ 57 ∨ b = 45) (bytesOf service) ∧
   ValidServiceName service = None).
Proof.
  assert (Hrunes : existsb notServiceRune (runes service) = false ↔
                   Forall (λ b, 97 ≤ b ≤ 122 ∨ 48 ≤ b ≤ 57 ∨ b = 45) (bytesOf service)).
  { unfold runes. rewrite runesFrom_existsb_high; [|intros r Hr|done].
    - induction (bytesOf service) as [|b l IH]; simpl.
      + split; [constructor|done].
      + by rewrite orb_false_iff, Forall_cons, IH, notServiceRune_false.
    - destruct (notServiceRune r) eqn:H; [done|].
      apply notServiceRune_false in H. lia. }
  unfold ValidServiceName.
  destruct (String.eqb_spec service "") as [He|He]; [by left|right].
  destruct (existsb notServiceRune (runes service)) eqn:Hex.
  - left. split; [done|]. split; [|done]. by intros H%Hrunes.
  - right. split; [done|]. split; [|done]. by apply Hrunes.
Qed.

(** [ValidServiceName] accepts exactly the non-empty strings whose bytes are
    lowercase ASCII letters, digits or dashes; it reports the empty name as
    [ErrUnsetService] and any other rejected name as [ErrInvalidService]. *)
Theorem ValidServiceName_accepts service :
  (ValidServiceName service = None ↔
     service ≠ "" ∧
     Forall (λ b, 97 ≤ b ≤ 122 ∨ 48 ≤ b ≤ 57 ∨ b = 45) (bytesOf service)) ∧
  (ValidServiceName service = Some ErrUnsetService ↔ service = "") ∧
  (ValidServiceName service = Some ErrInvalidService ↔
     service ≠ "" ∧
     ¬ Forall (λ b, 97 ≤ b ≤ 122 ∨ 48 ≤ b ≤ 57 ∨ b = 45) (bytesOf service)).
Proof.
  destruct (ValidServiceName_cases service)
    as [(He & ->)|[(Hne & Hbad & ->)|(Hne & Hok & ->)]]; valid_cases; done.
Qed.

(** A proto is a service name: what [validProto] accepts,
    [ValidServiceName] accepts. *)
Theorem validProto_implies_ValidServiceName inst :
  validProto inst = None → ValidServiceName (Proto inst) = None.
Proof.
  intros H. destruct (validProto_cases inst) as [(_ & H')|[(_ & _ & H')|(Hne & Hok & _)]];
    try congruence.
  destruct (ValidServiceName_cases (Proto inst))
    as [(He & _)|[(_ & Hbad & _)|(_ & _ & Hnone)]]; [done| |done].
  exfalso. apply Hbad. eapply Forall_impl; [exact Hok|]. simpl. intros b Hb. tauto.
Qed.

Lemma validProto_implies_ValidServiceName_witness :
  ValidServiceName (Proto instA) = None.
Proof. apply (validProto_implies_ValidServiceName instA). reflexivity. Defined.

(** ** The hex encoding of IDs *)

Lemma hexDecode_byte b :
  ascii_of_N (16 * hexValue (hexDigit (N.shiftr (N_of_ascii b) 4))
              + hexValue (hexDigit (N.land (N_of_ascii b) 0x0f))) = b.
Proof. by destruct b as [[] [] [] [] [] [] [] []]. Qed.

Lemma hexDecode_encode src : hexDecode (hex_EncodeToString src) = src.
Proof.
  induction src as [|b rest IH]; [done|].
  simpl hex_EncodeToString. cbn [hexDecode]. by rewrite hexDecode_byte, IH.
Qed.

(** [md5sum] loses nothing of the digest: its output has two lowercase hex
    digits per digest byte, and two inputs get the same ID only if their
    digests are the same. *)
Theorem md5sum_faithful (md5_Sum : string → string) (a b : string) :
  String.length (md5sum md5_Sum a) = (2 * String.length (md5_Sum a))%nat ∧
  Forall (λ c, c ∈ hextable) (String.list_ascii_of_string (md5sum md5_Sum a)) ∧
  (md5sum md5_Sum a = md5sum md5_Sum b ↔ md5_Sum a = md5_Sum b).
Proof.
  unfold md5sum. destruct (hex_EncodeToString_lowercase (md5_Sum a)) as [Hc Hl].
  split; [done|]. split; [done|]. split; [|by intros ->].
  intros H. apply (f_equal hexDecode) in H. by rewrite !hexDecode_encode in H.
Qed.

(** ** Event kinds as strings and as JSON *)

Lemma initTables_snoc entries ks :
  initTables (entries ++ [ks]) = initStep (initTables entries) ks.
Proof. unfold initTables. by rewrite foldl_app. Qed.

(** With distinct kinds, the marshalling table maps each kind to the JSON
    text of its name. *)
Lemma initTables_marshal entries k :
  NoDup entries.*1 →
  (initTables entries).1 !! k = jsonOf <$> (list_to_map entries : gmap N string) !! k.
Proof.
  induction entries as [|[k' s'] entries IH] using rev_ind; intros Hnd; [done|].
  rewrite fmap_app in Hnd. apply NoDup_app in Hnd as (Hnd & Hfresh & _).
  rewrite initTables_snoc. simpl.
  destruct (decide (k' = k)) as [->|Hne].
  - rewrite lookup_insert_eq.
    assert (Hk : (list_to_map (entries ++ [(k, s')]) : gmap N string) !! k = Some s').
    { apply elem_of_list_to_map_1.
      - rewrite fmap_app. apply NoDup_app. split; [done|]. split; [done|].
        simpl. apply NoDup_singleton.
      - apply elem_of_app. right. by left. }
    by rewrite Hk.
  - rewrite lookup_insert_ne by done. rewrite IH by done. f_equal.
    rewrite list_to_map_app. rewrite lookup_union. simpl.
    rewrite lookup_insert_ne by done. rewrite lookup_empty.
    by destruct (list_to_map entries !! k).
Qed.

(** With distinct JSON texts, the unmarshalling table maps the JSON text of
    each name back to its kind, and holds nothing else. *)
Lemma initTables_unmarshal entries :
  NoDup (jsonOf <$> entries.*2) →
  (∀ k s, (k, s) ∈ entries → (initTables entries).2 !! jsonOf s = Some k) ∧
  (∀ j k, (initTables entries).2 !! j = Some k → ∃ s, (k, s) ∈ entries ∧ j = jsonOf s).
Proof.
  induction entries as [|[k' s'] entries IH] using rev_ind; intros Hnd.
  { split; [by intros k s H%elem_of_nil|]. intros j k. simpl. by rewrite lookup_empty. }
  rewrite !fmap_app in Hnd. apply NoDup_app in Hnd as (Hnd & Hfresh & _).
  destruct (IH Hnd) as [IH1 IH2]. rewrite initTables_snoc. simpl. split.
  - intros k s [Hin|Hin]%elem_of_app.
    + rewrite lookup_insert_ne; [by apply IH1|].
      intros Heq. apply (Hfresh (jsonOf s)).
      * apply list_elem_of_fmap. exists s. split; [done|].
        apply list_elem_of_fmap. by exists (k, s).
      * rewrite <- Heq. simpl. by left.
    + apply list_elem_of_singleton in Hin as [= -> ->]. apply lookup_insert_eq.
  - intros j k. destruct (decide (jsonOf s' = j)) as [<-|Hne].
    + rewrite lookup_insert_eq. intros [= ->]. exists s'. split; [|done].
      apply elem_of_app. right. by left.
    + rewrite lookup_insert_ne by done. intros (s & Hin & ->)%IH2.
      exists s. split; [|done]. apply elem_of_app. by left.
Qed.

Section EventKindJSONFacts.
Context {O : RangeOrder}.

Lemma go_range_eventKindStrings k s :
  (k, s) ∈ go_range eventKindStrings ↔ eventKindStrings !! k = Some s.
Proof. rewrite (go_range_perm eventKindStrings). apply elem_of_map_to_list. Qed.

Lemma eventKind_names_distinct :
  NoDup (jsonOf <$> (go_range eventKindStrings).*2).
Proof.
  rewrite (go_range_perm eventKindStrings). by_decision.
Qed.

Lemma eventKindMarshalJSON_lookup k :
  eventKindMarshalJSON !! k = jsonOf <$> eventKindStrings !! k.
Proof.
  unfold eventKindMarshalJSON. rewrite initTables_marshal.
  - f_equal. destruct (eventKindStrings !! k) as [s|] eqn:Hk.
    + apply elem_of_list_to_map_1.
      * rewrite (go_range_perm eventKindStrings). apply NoDup_fst_map_to_list.
      * by apply go_range_eventKindStrings.
    + apply not_elem_of_list_to_map_1. intros Hin.
      apply list_elem_of_fmap in Hin as ([k' s] & -> & Hin).
      apply go_range_eventKindStrings in Hin. simpl in Hk. congruence.
  - rewrite (go_range_perm eventKindStrings). apply NoDup_fst_map_to_list.
Qed.

(** Whatever the iteration order of [init]: [MarshalJSON] is the quoted
    [String] of the kind, for the five named kinds and for any other
    value, which both print as unknown. *)
Theorem MarshalJSON_quotes_String (k : EventKind) :
  MarshalJSON k = jsonOf (EventKind_String k) ∧
  (k ∉ [EventKindUp; EventKindUpdate; EventKindDown; EventKindLeader] →
   EventKind_String k = "unknown").
Proof.
  split.
  - unfold MarshalJSON, EventKind_String. rewrite !eventKindMarshalJSON_lookup.
    unfold EventKind in *.
    destruct (eventKindStrings !! k); [done|by vm_compute].
  - intros Hk. unfold EventKind_String, eventKindStrings.
    repeat (rewrite lookup_insert_ne; [|intros <-; apply Hk; set_solver]).
    destruct (decide (k = EventKindUnknown)) as [->|Hne]; [done|].
    by rewrite lookup_singleton_ne.
Qed.

(** Round trip, whatever the iteration order of [init] and whatever the
    receiver held: unmarshalling what [MarshalJSON] produced gives the kind
    back when it is one of the five named kinds, and [EventKindUnknown] for
    any other value. *)
Theorem UnmarshalJSON_MarshalJSON (k0 k : EventKind) :
  UnmarshalJSON k0 (MarshalJSON k) =
    if decide (is_Some (eventKindStrings !! k)) then k else EventKindUnknown.
Proof.
  destruct (initTables_unmarshal _ eventKind_names_distinct) as [Hto _].
  unfold UnmarshalJSON, MarshalJSON, eventKindUnmarshalJSON, EventKind in *.
  rewrite !eventKindMarshalJSON_lookup.
  destruct (eventKindStrings !! k) as [s|] eqn:Hk; cbn [fmap option_fmap option_map].
  - rewrite (Hto k s); [|by apply go_range_eventKindStrings].
    rewrite decide_True; [done|by eexists].
  - assert (Hu : eventKindStrings !! EventKindUnknown = Some "unknown") by done.
    unfold EventKind in Hu. rewrite Hu.
    change (default "" (jsonOf <$> Some "unknown")) with (jsonOf "unknown").
    rewrite (Hto EventKindUnknown "unknown"); [|by apply go_range_eventKindStrings].
    rewrite decide_False; [done|by intros [? ?]].
Qed.

(** [UnmarshalJSON] changes the receiver only on the JSON text of one of
    the five names, and then to that name's kind: on any other input the
    receiver keeps the kind it held. *)
Theorem UnmarshalJSON_recognised (k0 : EventKind) (data : string) :
  (∀ k s, eventKindStrings !! k = Some s → UnmarshalJSON k0 (jsonOf s) = k) ∧
  (UnmarshalJSON k0 data ≠ k0 →
   ∃ s, eventKindStrings !! UnmarshalJSON k0 data = Some s ∧ data = jsonOf s).
Proof.
  destruct (initTables_unmarshal _ eventKind_names_distinct) as [Hto Hfrom].
  unfold UnmarshalJSON, eventKindUnmarshalJSON, EventKind in *. split.
  - intros k s Hk. by rewrite (Hto k s); [|apply go_range_eventKindStrings].
  - destruct (_ !! data) as [k|] eqn:Hd; [|done]. intros _.
    apply Hfrom in Hd as (s & Hin & ->). exists s. split; [|done].
    by apply go_range_eventKindStrings.
Qed.
End EventKindJSONFacts.

Example UnmarshalJSON_unquoted :
  UnmarshalJSON (O:=canonical_order) EventKindDown "up" = EventKindDown.
Proof. by vm_compute. Qed.

(** ** Equality of metadata and of instances *)

(** [mapEqual] decides equality of the two maps; it is symmetric although
    the loop only walks its first argument, because the lengths are
    compared first. *)
Theorem mapEqual_decides_equality (x y : gmap string string) :
  (mapEqual x y = true ↔ x = y) ∧ mapEqual x y = mapEqual y x.
Proof.
  split; [apply mapEqual_true|].
  destruct (mapEqual x y) eqn:Hxy, (mapEqual y x) eqn:Hyx; try done.
  - apply mapEqual_true in Hxy as ->.
    by rewrite (proj2 (mapEqual_true y y) eq_refl) in Hyx.
  - apply mapEqual_true in Hyx as ->.
    by rewrite (proj2 (mapEqual_true x x) eq_refl) in Hxy.
Qed.

(** [Equal] is an equivalence on instances that looks at [Addr], [Proto]
    and [Meta] only: instances that differ in [ID] or [Index] alone are
    equal. *)
Theorem Equal_equivalence (a b c : Instance) :
  Equal a a = true ∧
  Equal a b = Equal b a ∧
  (Equal a b = true → Equal b c = true → Equal a c = true) ∧
  (∀ id idx, Equal (mkInstance id (Addr a) (Proto a) (Meta a) idx) a = true).
Proof.
  split; [by apply Equal_true|]. split; [|split].
  - destruct (Equal a b) eqn:Hab, (Equal b a) eqn:Hba; try done.
    + apply Equal_true in Hab as (? & ? & ?).
      assert (Equal b a = true) by (by apply Equal_true). congruence.
    + apply Equal_true in Hba as (? & ? & ?).
      assert (Equal a b = true) by (by apply Equal_true). congruence.
  - intros (? & ? & ?)%Equal_true (? & ? & ?)%Equal_true. apply Equal_true.
    repeat split; congruence.
  - intros id idx. by apply Equal_true.
Qed.

(** ** The leader notification of a service *)

Lemma service_BroadcastLeader_snd s :
  (service_BroadcastLeader s).2 = setNotifyLeader false s.
Proof. unfold service_BroadcastLeader. by destruct s as [? ? ? []]. Qed.

(** [BroadcastLeader] hands out a pending notification once: it returns
    the current leader only when a notification is pending, touches nothing
    but the flag, and a second call right after it returns none and changes
    nothing. *)
Theorem BroadcastLeader_once (s : service) :
  service_BroadcastLeader (service_BroadcastLeader s).2 =
    (None, (service_BroadcastLeader s).2) ∧
  instances (service_BroadcastLeader s).2 = instances s ∧
  leaderID (service_BroadcastLeader s).2 = leaderID s ∧
  leaderIndex (service_BroadcastLeader s).2 = leaderIndex s ∧
  notifyLeader (service_BroadcastLeader s).2 = false ∧
  (service_BroadcastLeader s).1 =
    (if notifyLeader s then Leader (Some s) else None).
Proof.
  unfold service_BroadcastLeader. destruct s as [m lid lix []]; simpl; done.
Qed.

(** ** What each registry call does to the registry *)

Lemma changeEvents_filter name (old : gmap string Instance) (l : list Instance) :
  (λ inst, mkEvent name (eventKindUpdate (bool_decide (is_Some (old !! ID inst)))) inst)
    <$> List.filter (λ inst, match old !! ID inst with
                             | None => true
                             | Some o => negb (Equal inst o)
                             end) l
  = l ≫= changeEvents name old.
Proof.
  induction l as [|a l IH]; [done|].
  rewrite bind_cons, <- IH. cbn [List.filter]. unfold changeEvents.
  destruct (old !! ID a) as [o|] eqn:Ho.
  - destruct (Equal a o); simpl; [done|].
    rewrite Ho. by rewrite bool_decide_eq_true_2 by eauto.
  - simpl. rewrite Ho. by rewrite bool_decide_eq_false_2 by (by intros [? ?]).
Qed.

Section CallEffects.
Context {R : MapRange}.

Lemma broadcastLeader_run name st svc :
  services st !! name = Some svc →
  broadcastLeader name st =
    Ok () {| services := <[name := setNotifyLeader false svc]> (services st);
             subscribers := subscribers st |}
       (leaderEvents name svc).
Proof.
  intros H. rewrite (broadcastLeader_known _ _ _ H).
  by rewrite service_BroadcastLeader_snd.
Qed.

Lemma State_AddInstance_run name inst st :
  State_AddInstance name inst st =
    Ok () {| services :=
               <[name := setNotifyLeader false
                           (service_AddInstance inst
                              (default newService (services st !! name))).2]>
                 (services st);
             subscribers := subscribers st |}
       (changeEvents name (registered st name) inst ++
        leaderEvents name
          (service_AddInstance inst (default newService (services st !! name))).2).
Proof.
  unfold State_AddInstance, mbind, M_bind. simpl.
  set (data := default newService (services st !! name)).
  set (data' := maybeSetLeader inst _).
  assert (Hreg : registered st name = instances data).
  { unfold registered, data. by destruct (services st !! name). }
  set (st1 := {| services := <[name:=data']> (services st);
                 subscribers := subscribers st |}).
  assert (H1 : services st1 !! name = Some data') by apply lookup_insert_eq.
  unfold changeEvents. rewrite Hreg.
  destruct (instances data !! ID inst) as [o|] eqn:Ho; simpl.
  - destruct (Equal inst o); simpl;
      rewrite (broadcastLeader_run _ _ _ H1); simpl;
      by rewrite insert_insert_eq.
  - rewrite (broadcastLeader_run _ _ _ H1). simpl. by rewrite insert_insert_eq.
Qed.

Lemma State_RemoveInstance_run name id st :
  State_RemoveInstance name id st =
    match registered st name !! id with
    | None => Ok () st []
    | Some inst =>
        Ok () {| services :=
                   <[name := setNotifyLeader false
                               (service_RemoveInstance id
                                  (default newService (services st !! name))).2]>
                     (services st);
                 subscribers := subscribers st |}
           (mkEvent name EventKindDown inst ::
            leaderEvents name
              (service_RemoveInstance id (default newService (services st !! name))).2)
    end.
Proof.
  unfold State_RemoveInstance, registered, mbind, M_bind. simpl.
  destruct (services st !! name) as [data|] eqn:Hsvc; simpl.
  - unfold service_RemoveInstance at 1 2.
    destruct (instances data !! id) as [inst|] eqn:Hid; simpl.
    + set (data' := if String.eqb _ _ then _ else _).
      set (st1 := {| services := <[name:=data']> (services st);
                     subscribers := subscribers st |}).
      assert (H1 : services st1 !! name = Some data') by apply lookup_insert_eq.
      rewrite (broadcastLeader_run _ _ _ H1). simpl. rewrite insert_insert_eq.
      unfold service_RemoveInstance. rewrite Hid. done.
    + rewrite insert_id by done. by destruct st.
  - by rewrite lookup_empty.
Qed.

Lemma SetService_new_run name l st :
  services st !! name = None →
  SetService name (Some l) st =
    Ok () {| services :=
               <[name := setNotifyLeader false
                           (service_SetInstances (indexByID l) newService)]>
                 (services st);
             subscribers := subscribers st |}
       (((λ inst, mkEvent name EventKindUp inst) <$> l) ++
        leaderEvents name (service_SetInstances (indexByID l) newService)).
Proof.
  intros H. unfold SetService, mbind, M_bind. simpl. rewrite H. simpl.
  rewrite forEach_broadcast.
  set (svc := service_SetInstances (indexByID l) newService).
  set (st1 := {| services := <[name:=svc]> (services st);
                 subscribers := subscribers st |}).
  assert (H1 : services st1 !! name = Some svc) by apply lookup_insert_eq.
  rewrite (broadcastLeader_run _ _ _ H1). simpl. by rewrite insert_insert_eq.
Qed.

Lemma SetService_existing_run name l st svc :
  services st !! name = Some svc →
  SetService name (Some l) st =
    Ok () {| services :=
               <[name := match l with
                         | [] => service_SetInstances (indexByID l) svc
                         | _ => setNotifyLeader false
                                  (service_SetInstances (indexByID l) svc)
                         end]> (services st);
             subscribers := subscribers st |}
       ((l ≫= changeEvents name (instances svc)) ++
        ((λ kv, mkEvent name EventKindDown kv.2)
           <$> List.filter (λ kv, bool_decide (indexByID l !! kv.1 = None))
                 (range_map (instances svc))) ++
        match l with
        | [] => []
        | _ => leaderEvents name (service_SetInstances (indexByID l) svc)
        end).
Proof.
  intros H. unfold SetService, mbind, M_bind. simpl. rewrite H. simpl.
  rewrite !forEach_when_broadcast. rewrite changeEvents_filter.
  set (svc1 := service_SetInstances (indexByID l) svc).
  set (st1 := {| services := <[name:=svc1]> (services st);
                 subscribers := subscribers st |}).
  assert (H1 : services st1 !! name = Some svc1) by apply lookup_insert_eq.
  destruct l as [|a l]; simpl.
  - by rewrite app_nil_r.
  - rewrite (broadcastLeader_run _ _ _ H1). simpl. rewrite insert_insert_eq.
    by rewrite <- !app_assoc.
Qed.

Lemma RemoveService_known name st svc :
  services st !! name = Some svc →
  RemoveService name st =
    Ok () {| services := delete name (services st); subscribers := subscribers st |}
       ((λ kv, mkEvent name EventKindDown kv.2) <$> range_map (instances svc)).
Proof.
  intros H. unfold RemoveService, mbind, M_bind. simpl. rewrite H.
  rewrite forEach_broadcast. simpl. by rewrite app_nil_r.
Qed.

Lemma AddService_run name st :
  AddService name st =
    Ok () {| services := <[name := default newService (services st !! name)]> (services st);
             subscribers := subscribers st |} [].
Proof.
  unfold AddService, mbind, M_bind. simpl.
  destruct (services st !! name) as [svc|] eqn:H; simpl; [|done].
  rewrite insert_id by done. by destruct st.
Qed.
End CallEffects.

(** ** Sequences of registry calls *)

Lemma apply_mutation_stored {R : MapRange} s m k i :
  instances (apply_mutation s m) !! k = Some i →
  instances s !! k = Some i ∨ i ∈ handed_in m.
Proof.
  destruct m as [inst|id|data]; simpl.
  - rewrite maybeSetLeader_instances. simpl.
    destruct (decide (ID inst = k)) as [<-|Hne].
    + rewrite lookup_insert_eq. intros [= ->]. right. by left.
    + rewrite lookup_insert_ne by done. by left.
  - unfold service_RemoveInstance.
    destruct (instances s !! id) as [inst|] eqn:Hid; simpl; [|by left].
    intros Hk. left. destruct (String.eqb (ID inst) _).
    + rewrite maybePickLeader_instances in Hk. simpl in Hk.
      by apply lookup_delete_Some in Hk as [_ ?].
    + simpl in Hk. by apply lookup_delete_Some in Hk as [_ ?].
  - unfold service_SetInstances. rewrite maybePickLeader_instances. simpl.
    intros Hk. right. apply list_elem_of_fmap. exists (k, i).
    split; [done|]. by apply elem_of_map_to_list.
Qed.

Lemma indexByID_values l k i : indexByID l !! k = Some i → i ∈ l ∧ ID i = k.
Proof.
  intros H. split; [|by apply (indexByID_keyed l k i)].
  rewrite indexByID_lookup in H. apply last_Some in H as [l' Hl'].
  assert (Hin : i ∈ filter (λ j, ID j = k) l).
  { rewrite Hl'. apply elem_of_app. right. by left. }
  by apply list_elem_of_filter in Hin as [_ ?].
Qed.

Section CallSequences.
Context {R : MapRange}.

Lemma service_SetInstances_empty_flag svc :
  notifyLeader (service_SetInstances ∅ svc) = notifyLeader svc.
Proof.
  unfold service_SetInstances, maybePickLeader. simpl.
  rewrite (proj2 (range_map_nil ∅) eq_refl). simpl.
  by destruct (∅ !! leaderID svc).
Qed.

(** How one call changes the services: a service of the new registry is a
    service of the old one, or a new service, or the result of one
    service-table mutation, fed with instances of the call, on an old or a
    new service, with the flag either kept or cleared. *)
Lemma run_call_effect c st st' evs n svc' :
  run_call c st = Ok () st' evs →
  services st' !! n = Some svc' →
  services st !! n = Some svc' ∨ svc' = newService ∨
  ∃ svc0 m svc1,
    (services st !! n = Some svc0 ∨ svc0 = newService) ∧
    svc1 = apply_mutation svc0 m ∧
    (svc' = setNotifyLeader false svc1 ∨
     (svc' = svc1 ∧ notifyLeader svc1 = notifyLeader svc0)) ∧
    mutation_keyed m ∧
    (∀ i, i ∈ handed_in m → i ∈ call_instances c).
Proof.
  destruct c as [name|name|name inst|name id|name [l|]]; simpl.
  - rewrite AddService_run. intros [= <- _]. simpl.
    destruct (decide (name = n)) as [->|Hne].
    + rewrite lookup_insert_eq. intros [= <-].
      destruct (services st !! n); simpl; auto.
    + rewrite lookup_insert_ne by done. auto.
  - destruct (services st !! name) as [svc|] eqn:Hsvc.
    + rewrite (RemoveService_known _ _ _ Hsvc). intros [= <- _]. simpl.
      intros [_ ?]%lookup_delete_Some. auto.
    + by rewrite (RemoveService_unknown _ _ Hsvc).
  - rewrite State_AddInstance_run. intros [= <- _]. simpl.
    destruct (decide (name = n)) as [->|Hne]; [|rewrite lookup_insert_ne by done; auto].
    rewrite lookup_insert_eq. intros [= <-]. right. right.
    eexists (default newService (services st !! n)), (MutAdd inst), _.
    split; [destruct (services st !! n); simpl; auto|].
    split; [reflexivity|]. split; [by left|]. split; [done|]. by intros i Hi.
  - rewrite State_RemoveInstance_run.
    destruct (registered st name !! id) as [inst|]; [|intros [= <- _]; auto].
    intros [= <- _]. simpl.
    destruct (decide (name = n)) as [->|Hne]; [|rewrite lookup_insert_ne by done; auto].
    rewrite lookup_insert_eq. intros [= <-]. right. right.
    eexists (default newService (services st !! n)), (MutRemove id), _.
    split; [destruct (services st !! n); simpl; auto|].
    split; [reflexivity|]. split; [by left|]. split; [done|].
    by intros i Hi%elem_of_nil.
  - assert (Hhanded : ∀ i, i ∈ handed_in (MutSet (indexByID l)) → i ∈ l).
    { intros i ([k j] & -> & Hkj%elem_of_map_to_list)%list_elem_of_fmap.
      by apply indexByID_values in Hkj as [? _]. }
    destruct (services st !! name) as [svc|] eqn:Hsvc.
    + rewrite (SetService_existing_run _ _ _ _ Hsvc). intros [= <- _]. simpl.
      destruct (decide (name = n)) as [->|Hne]; [|rewrite lookup_insert_ne by done; auto].
      rewrite lookup_insert_eq. intros [= <-]. right. right.
      eexists svc, (MutSet (indexByID l)), _.
      split; [by left|]. split; [reflexivity|].
      split; [|split; [apply indexByID_keyed|done]].
      destruct l as [|a l]; [right|by left].
      split; [done|]. apply service_SetInstances_empty_flag.
    + rewrite (SetService_new_run _ _ _ Hsvc). intros [= <- _]. simpl.
      destruct (decide (name = n)) as [->|Hne]; [|rewrite lookup_insert_ne by done; auto].
      rewrite lookup_insert_eq. intros [= <-]. right. right.
      eexists newService, (MutSet (indexByID l)), _.
      split; [by right|]. split; [reflexivity|]. split; [by left|].
      split; [apply indexByID_keyed|done].
  - destruct (services st !! name) as [svc|] eqn:Hsvc.
    + rewrite (SetService_nil_known _ _ _ Hsvc). intros [= <- _]. simpl.
      intros [_ ?]%lookup_delete_Some. auto.
    + by rewrite (SetService_nil_unknown _ _ Hsvc).
Qed.

Lemma run_calls_snoc cs c st st' evs :
  run_calls (cs ++ [c]) st = Ok () st' evs →
  ∃ st1 evs1 evs2,
    run_calls cs st = Ok () st1 evs1 ∧ run_call c st1 = Ok () st' evs2 ∧
    evs = evs1 ++ evs2.
Proof.
  revert st evs. induction cs as [|c0 cs IH]; intros st evs.
  - unfold run_calls. simpl. unfold mbind, M_bind.
    destruct (run_call c st) as [[] st1 e1|] eqn:Hc; simpl; [|done].
    intros [= <- <-]. exists st, [], e1. by rewrite app_nil_r.
  - unfold run_calls. simpl. unfold mbind, M_bind.
    destruct (run_call c0 st) as [[] st0 e0|]; simpl; [|done].
    fold (run_calls (cs ++ [c]) st0). fold (run_calls cs st0).
    destruct (run_calls (cs ++ [c]) st0) as [[] st2 e2|] eqn:Hrun; [|done].
    intros [= <- <-]. destruct (IH _ _ Hrun) as (st1 & e1 & e3 & Hcs & Hc & ->).
    exists st1, (e0 ++ e1), e3. rewrite Hcs. by rewrite app_assoc.
Qed.

(** Induction over the calls of a sequence that returns. *)
Lemma run_calls_ind (Q : list call → State → Prop) st0 :
  Q [] st0 →
  (∀ cs c st st' evs, Q cs st → run_call c st = Ok () st' evs → Q (cs ++ [c]) st') →
  ∀ cs st' evs, run_calls cs st0 = Ok () st' evs → Q cs st'.
Proof.
  intros Hnil Hstep cs. induction cs as [|c cs IH] using rev_ind; intros st' evs.
  - unfold run_calls. simpl. by intros [= <- _].
  - intros (st1 & e1 & e2 & Hcs & Hc & _)%run_calls_snoc.
    eapply Hstep; [|exact Hc]. by eapply IH.
Qed.
End CallSequences.

Lemma calls_consistent_elem cs :
  calls_consistent cs ↔
  ∀ a b, a ∈ mjoin (call_instances <$> cs) → b ∈ mjoin (call_instances <$> cs) →
         (ID a = ID b ↔ Index a = Index b).
Proof.
  unfold calls_consistent. cbv zeta. rewrite Forall_forall.
  split.
  - intros H a b Ha Hb. specialize (H a Ha). rewrite Forall_forall in H. by apply H.
  - intros H a Ha. apply Forall_forall. intros b Hb. by apply H.
Qed.

Lemma handed_snoc cs c :
  mjoin (call_instances <$> (cs ++ [c])) = mjoin (call_instances <$> cs) ++ call_instances c.
Proof. rewrite fmap_app, join_app. simpl. by rewrite app_nil_r. Qed.

Lemma leader_inv_flag P b s : leader_inv P (setNotifyLeader b s) ↔ leader_inv P s.
Proof. done. Qed.

Section RegistryInvariants.
Context {R : MapRange}.

(** After any sequence of registry calls that returns, from the empty
    registry, no service holds a pending leader notification: every change
    of leader was broadcast by the call that made it. *)
Theorem run_calls_no_pending cs st evs :
  run_calls cs NewState = Ok () st evs → no_pending st.
Proof.
  apply (run_calls_ind (λ _ st, no_pending st)).
  - apply map_Forall_empty.
  - clear. intros _ c st st' evs Hinv Hc n svc' Hn.
    destruct (run_call_effect _ _ _ _ _ _ Hc Hn)
      as [Hold|[->|(svc0 & m & svc1 & Hsvc0 & -> & Hflag & _)]].
    + by apply (Hinv n).
    + done.
    + destruct Hflag as [->|[-> ->]]; [done|].
      destruct Hsvc0 as [Hold| ->]; [by apply (Hinv n)|done].
Qed.

Lemma run_calls_leader_inv_any cs st evs :
  calls_positive cs →
  run_calls cs NewState = Ok () st evs →
  map_Forall (λ _ svc, leader_inv (λ _ _, True) svc) (services st).
Proof.
  intros Hpos Hrun. revert Hpos.
  apply (run_calls_ind
           (λ cs st, calls_positive cs →
                     map_Forall (λ _ svc, leader_inv (λ _ _, True) svc) (services st))
           NewState) with (evs := evs); [| |exact Hrun].
  - intros _. apply map_Forall_empty.
  - clear. intros cs c st st' evs IH Hc Hpos n svc' Hn.
    apply Forall_app in Hpos as [Hpos Hp]. rewrite Forall_singleton in Hp.
    specialize (IH Hpos).
    destruct (run_call_effect _ _ _ _ _ _ Hc Hn)
      as [Hold|[->|(svc0 & m & svc1 & Hsvc0 & -> & Hflag & Hkey & Hin)]].
    + by apply (IH n).
    + apply newService_inv.
    + assert (Hinv : leader_inv (λ _ _, True) (apply_mutation svc0 m)).
      { apply apply_mutation_inv; try done.
        - destruct Hsvc0 as [Hold| ->]; [by apply (IH n)|apply newService_inv].
        - apply Forall_forall. intros i Hi.
          by apply (proj1 (Forall_forall _ _) Hp), Hin. }
      by destruct Hflag as [->|[-> _]].
Qed.

(** After any sequence of registry calls that returns, from the empty
    registry, in which every instance handed in has a positive [Index]:
    for every name, [GetLeader] returns none exactly when [Get] returns no
    instance. *)
Theorem GetLeader_none_iff_Get_empty cs st evs name :
  calls_positive cs →
  run_calls cs NewState = Ok () st evs →
  GetLeader name st = Ok None st [] ↔ Get name st = Ok [] st [].
Proof.
  intros Hpos Hrun.
  pose proof (run_calls_leader_inv_any _ _ _ Hpos Hrun) as Hinv.
  unfold GetLeader, Get, getLocked, mbind, M_bind. simpl.
  destruct (services st !! name) as [svc|] eqn:Hsvc; simpl; [|done].
  pose proof (leader_inv_Leader _ svc (Hinv _ _ Hsvc)) as Hl. simpl in Hl.
  split.
  - intros [= Hnone]. apply Hl in Hnone. rewrite Hnone.
    by rewrite (proj2 (range_map_nil ∅) eq_refl).
  - intros [= Hnil]. apply fmap_nil_inv in Hnil. apply range_map_nil in Hnil.
    by rewrite (proj2 Hl Hnil).
Qed.

Lemma run_calls_leader_inv_exact cs st evs :
  calls_positive cs → calls_consistent cs →
  run_calls cs NewState = Ok () st evs →
  map_Forall (λ _ svc, leader_inv (λ i n, Index i = n) svc) (services st) ∧
  ∀ n svc k i, services st !! n = Some svc → instances svc !! k = Some i →
               i ∈ mjoin (call_instances <$> cs).
Proof.
  intros Hpos Hcons Hrun. revert Hpos Hcons.
  apply (run_calls_ind
           (λ cs st, calls_positive cs → calls_consistent cs →
              map_Forall (λ _ svc, leader_inv (λ i n, Index i = n) svc) (services st) ∧
              ∀ n svc k i, services st !! n = Some svc → instances svc !! k = Some i →
                           i ∈ mjoin (call_instances <$> cs))
           NewState) with (evs := evs); [| |exact Hrun].
  - intros _ _. split; [apply map_Forall_empty|]. intros n svc k i. simpl.
    by rewrite lookup_empty.
  - clear. intros cs c st st' evs IH Hc Hpos Hcons.
    apply Forall_app in Hpos as [Hpos Hp]. rewrite Forall_singleton in Hp.
    rewrite calls_consistent_elem in Hcons. rewrite handed_snoc in Hcons.
    assert (Hprev : calls_consistent cs).
    { apply calls_consistent_elem. intros a b Ha Hb.
      apply Hcons; apply elem_of_app; by left. }
    destruct (IH Hpos Hprev) as [IHinv IHin]. rewrite handed_snoc.
    assert (Hnew : leader_inv (λ i n, Index i = n) newService) by (by apply newService_inv).
    assert (Hstep : ∀ n svc0 m,
               services st !! n = Some svc0 ∨ svc0 = newService →
               mutation_keyed m → (∀ i, i ∈ handed_in m → i ∈ call_instances c) →
               leader_inv (λ i n, Index i = n) (apply_mutation svc0 m)).
    { intros n svc0 m Hsvc0 Hkey Hin.
      assert (Hinv0 : leader_inv (λ i n, Index i = n) svc0).
      { destruct Hsvc0 as [Hold| ->]; [by apply (IHinv n)|done]. }
      apply apply_mutation_inv; try done.
      - apply Forall_forall. intros i Hi.
        by apply (proj1 (Forall_forall _ _) Hp), Hin.
      - intros i o idx Hi Ho <-.
        destruct Hinv0 as [Hok _]. destruct (Hok _ _ Ho) as [Hid _].
        assert (Ho' : o ∈ mjoin (call_instances <$> cs)).
        { destruct Hsvc0 as [Hold| ->]; [by eapply IHin|].
          simpl in Ho. by rewrite lookup_empty in Ho. }
        apply (Hcons i o); [apply elem_of_app; right; by apply Hin
                           |apply elem_of_app; by left|done]. }
    split.
    + intros n svc' Hn.
      destruct (run_call_effect _ _ _ _ _ _ Hc Hn)
        as [Hold|[->|(svc0 & m & svc1 & Hsvc0 & -> & Hflag & Hkey & Hin)]].
      * by apply (IHinv n).
      * done.
      * specialize (Hstep n svc0 m Hsvc0 Hkey Hin).
        by destruct Hflag as [->|[-> _]].
    + intros n svc' k i Hn Hk. apply elem_of_app.
      destruct (run_call_effect _ _ _ _ _ _ Hc Hn)
        as [Hold|[->|(svc0 & m & svc1 & Hsvc0 & -> & Hflag & Hkey & Hin)]].
      * left. by eapply IHin.
      * simpl in Hk. by rewrite lookup_empty in Hk.
      * assert (Hk' : instances (apply_mutation svc0 m) !! k = Some i).
        { by destruct Hflag as [->|[-> _]]. }
        apply apply_mutation_stored in Hk' as [Hold|Hnew'].
        -- left. destruct Hsvc0 as [Hsvc0| ->]; [by eapply IHin|].
           simpl in Hold. by rewrite lookup_empty in Hold.
        -- right. by apply Hin.
Qed.

(** After any sequence of registry calls that returns, from the empty
    registry, in which every instance handed in has a positive [Index],
    indices are unique and no ID comes back with another index: for every
    name with at least one instance, [GetLeader] returns one of the
    instances [Get] returns, and every other one has a strictly larger
    [Index]. *)
Theorem GetLeader_is_oldest cs st evs name :
  calls_positive cs → calls_consistent cs →
  run_calls cs NewState = Ok () st evs →
  getLocked name (services st) ≠ [] →
  ∃ l, GetLeader name st = Ok (Some l) st [] ∧
       l ∈ getLocked name (services st) ∧
       ∀ i, i ∈ getLocked name (services st) → i = l ∨ Index l < Index i.
Proof.
  intros Hpos Hcons Hrun Hne.
  destruct (run_calls_leader_inv_exact _ _ _ Hpos Hcons Hrun) as [Hinv Hin].
  rewrite calls_consistent_elem in Hcons.
  unfold GetLeader, getLocked, mbind, M_bind in *. simpl.
  destruct (services st !! name) as [svc|] eqn:Hsvc; [|done]. simpl.
  destruct (Hinv _ _ Hsvc) as [Hok [[He _]|[[Hlt (l & Hl & Hidx)] Hmin]]].
  { exfalso. apply Hne. rewrite He. by rewrite (proj2 (range_map_nil ∅) eq_refl). }
  exists l. rewrite Hl. split; [done|]. split.
  - apply list_elem_of_fmap. exists (leaderID svc, l). split; [done|].
    by apply range_map_elem.
  - intros i ([k j] & -> & Hkj%range_map_elem)%list_elem_of_fmap. simpl.
    specialize (Hmin k j Hkj).
    destruct (decide (Index j = Index l)) as [Heq|Hneq]; [left|right; lia].
    destruct (Hok _ _ Hkj) as [Hjid _]. destruct (Hok _ _ Hl) as [Hlid _].
    apply (Hcons j l) in Heq; [|by eapply Hin|by eapply Hin].
    rewrite Hjid, Hlid in Heq. subst k. congruence.
Qed.
End RegistryInvariants.

Lemma sample_calls_run :
  ∃ st evs, run_calls (R:=canonical_range) sample_calls NewState = Ok () st evs ∧
            getLocked (R:=canonical_range) "web" (services st) ≠ [].
Proof. eexists _, _. split; [by vm_compute|]. by vm_compute. Qed.

Lemma sample_calls_positive : calls_positive sample_calls.
Proof. unfold calls_positive. by_decision. Qed.

Lemma sample_calls_consistent : calls_consistent sample_calls.
Proof. unfold calls_consistent. cbv zeta. by_decision. Qed.

Lemma run_calls_no_pending_witness :
  ∃ st evs, run_calls (R:=canonical_range) sample_calls NewState = Ok () st evs ∧
            no_pending st.
Proof.
  destruct sample_calls_run as (st & evs & Hrun & _). exists st, evs.
  split; [exact Hrun|].
  exact (@run_calls_no_pending canonical_range sample_calls st evs Hrun).
Defined.

Lemma GetLeader_none_iff_Get_empty_witness :
  ∃ st evs, run_calls (R:=canonical_range) sample_calls NewState = Ok () st evs ∧
            (GetLeader "db" st = Ok None st [] ↔
             Get (R:=canonical_range) "db" st = Ok [] st []).
Proof.
  destruct sample_calls_run as (st & evs & Hrun & _). exists st, evs.
  split; [exact Hrun|].
  exact (@GetLeader_none_iff_Get_empty canonical_range sample_calls st evs "db"
           sample_calls_positive Hrun).
Defined.

Lemma GetLeader_is_oldest_witness :
  ∃ st evs, run_calls (R:=canonical_range) sample_calls NewState = Ok () st evs ∧
    ∃ l, GetLeader "web" st = Ok (Some l) st [] ∧
         l ∈ getLocked (R:=canonical_range) "web" (services st) ∧
         ∀ i, i ∈ getLocked (R:=canonical_range) "web" (services st) →
              i = l ∨ Index l < Index i.
Proof.
  destruct sample_calls_run as (st & evs & Hrun & Hne). exists st, evs.
  split; [exact Hrun|].
  exact (@GetLeader_is_oldest canonical_range sample_calls st evs "web"
           sample_calls_positive sample_calls_consistent Hrun Hne).
Defined.

Example sample_calls_events :
  ∃ st, run_calls (R:=canonical_range) sample_calls NewState =
    Ok () st
       [ mkEvent "web" EventKindUp instA; mkEvent "web" EventKindLeader instA;
         mkEvent "web" EventKindUp instB;
         mkEvent "web" EventKindUpdate instB_meta; mkEvent "web" EventKindUp instC;
         mkEvent "web" EventKindDown instA; mkEvent "web" EventKindLeader instB_meta ].
Proof. eexists. by vm_compute. Qed.

(** ** The events and the effect of single calls *)

Lemma leaderEvents_cases name svc :
  leaderEvents name svc = [] ∨
  ∃ l, leaderEvents name svc = [mkEvent name EventKindLeader l] ∧
       Leader (Some (setNotifyLeader false svc)) = Some l.
Proof.
  unfold leaderEvents, service_BroadcastLeader.
  destruct (notifyLeader svc); simpl; [|by left].
  destruct (instances svc !! leaderID svc) as [l|] eqn:Hl; [right|by left].
  by exists l.
Qed.

Lemma leaderEvents_no_pending name svc :
  notifyLeader svc = false → leaderEvents name svc = [].
Proof. unfold leaderEvents, service_BroadcastLeader. by intros ->. Qed.

Lemma registered_insert st name svc sub :
  registered {| services := <[name := svc]> (services st); subscribers := sub |} name
  = instances svc.
Proof. unfold registered. simpl. by rewrite lookup_insert_eq. Qed.

Lemma registered_default st name :
  instances (default newService (services st !! name)) = registered st name.
Proof. unfold registered. by destruct (services st !! name). Qed.

Lemma service_AddInstance_twice inst s :
  (service_AddInstance inst (setNotifyLeader false (service_AddInstance inst s).2)).1
    = Some inst ∧
  (service_AddInstance inst (setNotifyLeader false (service_AddInstance inst s).2)).2
    = setNotifyLeader false (service_AddInstance inst s).2.
Proof.
  destruct s as [m lid lix fl].
  unfold service_AddInstance, maybeSetLeader, adopts. simpl.
  destruct (N.eqb_spec lix 0) as [Hz|Hz];
    destruct (N.ltb_spec (Index inst) lix) as [Hlt|Hlt]; simpl;
    rewrite ?lookup_insert_eq, ?N.ltb_irrefl, ?orb_false_r.
  1-3: split; [done|]; destruct (Index inst =? 0); simpl;
       by rewrite ?String.eqb_refl, insert_insert_eq.
  split; [done|].
  rewrite (proj2 (N.eqb_neq _ _) Hz), (proj2 (N.ltb_ge _ _) Hlt). simpl.
  by rewrite insert_insert_eq.
Qed.

Lemma GetLeader_run name st :
  GetLeader name st = Ok (Leader (services st !! name)) st [].
Proof. done. Qed.

Section SingleCalls.
Context {R : MapRange}.

(** [State.AddInstance] panics on a nil [*Instance], in every registry, and
    on no other input.  On a non-nil instance it emits [up] when the ID was
    not registered under the name, [update] when it was with an instance
    that is not [Equal], nothing when it was with an [Equal] one; then at
    most one [leader] event, which carries the instance [GetLeader] returns
    afterwards.  The instance is stored under its ID, the other entries of
    the service, the other services and the subscribers are untouched. *)
Theorem AddInstance_effect name (ptr : option Instance) st :
  match ptr with
  | None => State_AddInstance_ptr name ptr st = Panic []
  | Some inst =>
      ∃ st' leaderEvs,
        State_AddInstance_ptr name ptr st =
          Ok () st' (changeEvents name (registered st name) inst ++ leaderEvs) ∧
        registered st' name = <[ID inst := inst]> (registered st name) ∧
        (∀ n, n ≠ name → services st' !! n = services st !! n) ∧
        subscribers st' = subscribers st ∧
        (leaderEvs = [] ∨
         ∃ l, leaderEvs = [mkEvent name EventKindLeader l] ∧
              GetLeader name st' = Ok (Some l) st' [])
  end.
Proof.
  destruct ptr as [inst|]; [|done]. cbn [State_AddInstance_ptr].
  rewrite State_AddInstance_run. eexists _, _. split; [reflexivity|].
  split; [|split; [|split; [done|]]].
  - rewrite registered_insert. simpl. rewrite maybeSetLeader_instances. simpl.
    by rewrite registered_default.
  - intros n Hn. simpl. by rewrite lookup_insert_ne.
  - destruct (leaderEvents_cases name
                (service_AddInstance inst (default newService (services st !! name))).2)
      as [->|(l & -> & Hl)]; [by left|right].
    exists l. split; [done|].
    rewrite GetLeader_run. cbn [services]. rewrite lookup_insert_eq. by rewrite Hl.
Qed.

(** In a registry without pending notification, [State.AddInstance] emits
    a [leader] event exactly when the instance is adopted as leader and its
    ID is not the ID of the leader before the call; the event carries the
    instance itself. *)
Theorem AddInstance_announces name inst st :
  no_pending st →
  ∃ st',
    State_AddInstance name inst st =
      Ok () st'
         (changeEvents name (registered st name) inst ++
          if adopts (default newService (services st !! name)) inst &&
             negb (String.eqb (ID inst)
                     (leaderID (default newService (services st !! name))))
          then [mkEvent name EventKindLeader inst] else []).
Proof.
  intros Hinv. rewrite State_AddInstance_run. eexists. f_equal. f_equal.
  set (svc0 := default newService (services st !! name)).
  assert (Hflag : notifyLeader svc0 = false).
  { unfold svc0. destruct (services st !! name) as [svc|] eqn:Hsvc; [by apply (Hinv name)|done]. }
  unfold leaderEvents, service_BroadcastLeader, service_AddInstance. cbn [snd].
  unfold maybeSetLeader.
  change (adopts (setInstancesField (<[ID inst:=inst]> (instances svc0)) svc0) inst)
    with (adopts svc0 inst).
  destruct (adopts svc0 inst) eqn:Had;
    cbn [notifyLeader instances leaderID setInstancesField fst andb]; rewrite Hflag.
  - cbn [orb]. destruct (negb _); cbn [fst]; [|done].
    by rewrite lookup_insert_eq.
  - done.
Qed.

(** Registering the same instance again right away is silent and changes
    nothing, in every registry. *)
Theorem AddInstance_idempotent name inst st st' evs :
  State_AddInstance name inst st = Ok () st' evs →
  State_AddInstance name inst st' = Ok () st' [].
Proof.
  rewrite State_AddInstance_run. intros [= <- _].
  rewrite State_AddInstance_run. cbn [services subscribers].
  rewrite lookup_insert_eq. cbn [default from_option].
  set (svc0 := default newService (services st !! name)).
  destruct (service_AddInstance_twice inst svc0) as [Hold Hsame].
  unfold changeEvents. rewrite registered_insert.
  unfold service_AddInstance at 1 in Hold. cbn [fst] in Hold.
  set (s1 := setNotifyLeader false
               (maybeSetLeader inst
                  (setInstancesField (<[ID inst:=inst]> (instances svc0)) svc0))).
  change (setNotifyLeader false (service_AddInstance inst svc0).2) with s1 in Hold, Hsame.
  unfold id. rewrite Hold, Hsame.
  rewrite (proj2 (Equal_true inst inst)) by done.
  rewrite insert_insert_eq.
  by rewrite leaderEvents_no_pending.
Qed.
End SingleCalls.

Lemma web_pair_no_pending : no_pending web_pair_state.
Proof. unfold no_pending. by_decision. Qed.

Lemma AddInstance_announces_witness :
  ∃ st',
    State_AddInstance "web" instA_reindexed web_pair_state =
      Ok () st'
         (changeEvents "web" (registered web_pair_state "web") instA_reindexed ++
          if adopts (default newService (services web_pair_state !! "web")) instA_reindexed &&
             negb (String.eqb (ID instA_reindexed)
                     (leaderID (default newService (services web_pair_state !! "web"))))
          then [mkEvent "web" EventKindLeader instA_reindexed] else []).
Proof.
  exact (AddInstance_announces "web" instA_reindexed web_pair_state web_pair_no_pending).
Defined.

Lemma AddInstance_idempotent_witness :
  State_AddInstance "web" instC
    {| services := {["web" := (service_AddInstance instC web_pair_service).2 ]};
       subscribers := ∅ |}
  = Ok () {| services := {["web" := (service_AddInstance instC web_pair_service).2 ]};
             subscribers := ∅ |} [].
Proof.
  apply (AddInstance_idempotent "web" instC web_pair_state _
           [mkEvent "web" EventKindUp instC]).
  by vm_compute.
Defined.

Lemma indexByID_None l k : indexByID l !! k = None ↔ k ∉ ID <$> l.
Proof.
  induction l as [|a l IH] using rev_ind.
  - split; [intros _ H; by apply elem_of_nil in H|done].
  - rewrite indexByID_snoc, lookup_insert_None, IH, fmap_app, not_elem_of_app.
    simpl. rewrite list_elem_of_singleton.
    split; intros [? ?]; (split; [done|congruence]).
Qed.

Section MoreSingleCalls.
Context {R : MapRange}.

(** [State.RemoveInstance] never panics.  When the ID is not registered
    under the name (unknown service or unknown instance) it emits nothing
    and leaves the registry as it is.  Otherwise it emits [down] for the
    stored instance, then at most one [leader] event, which carries the
    instance [GetLeader] returns afterwards; the entry is deleted and
    nothing else changes. *)
Theorem RemoveInstance_effect name id st :
  match registered st name !! id with
  | None => State_RemoveInstance name id st = Ok () st []
  | Some inst =>
      ∃ st' leaderEvs,
        State_RemoveInstance name id st =
          Ok () st' (mkEvent name EventKindDown inst :: leaderEvs) ∧
        registered st' name = delete id (registered st name) ∧
        (∀ n, n ≠ name → services st' !! n = services st !! n) ∧
        subscribers st' = subscribers st ∧
        (leaderEvs = [] ∨
         ∃ l, leaderEvs = [mkEvent name EventKindLeader l] ∧
              GetLeader name st' = Ok (Some l) st' [])
  end.
Proof.
  rewrite State_RemoveInstance_run.
  destruct (registered st name !! id) as [inst|] eqn:Hid; [|done].
  eexists _, _. split; [reflexivity|].
  set (svc0 := default newService (services st !! name)).
  assert (Hin : instances svc0 !! id = Some inst).
  { unfold svc0. by rewrite registered_default. }
  split; [|split; [|split; [done|]]].
  - rewrite registered_insert. cbn [instances setNotifyLeader].
    rewrite <- (registered_default st name). fold svc0.
    unfold service_RemoveInstance. rewrite Hin. cbn [snd].
    destruct (String.eqb _ _); [by rewrite maybePickLeader_instances|done].
  - intros n Hn. simpl. by rewrite lookup_insert_ne.
  - destruct (leaderEvents_cases name (service_RemoveInstance id svc0).2)
      as [->|(l & -> & Hl)]; [by left|right].
    exists l. split; [done|].
    rewrite GetLeader_run. cbn [services]. rewrite lookup_insert_eq. by rewrite Hl.
Qed.

(** In a registry without pending notification, removing an instance that
    is not the leader, or the last instance of the service, emits the
    [down] event alone: no [leader] event. *)
Theorem RemoveInstance_without_leader_event name id st svc inst :
  no_pending st →
  services st !! name = Some svc →
  instances svc !! id = Some inst →
  ID inst ≠ leaderID svc ∨ delete id (instances svc) = ∅ →
  ∃ st', State_RemoveInstance name id st = Ok () st' [mkEvent name EventKindDown inst].
Proof.
  intros Hinv Hsvc Hid Hcase. rewrite State_RemoveInstance_run.
  unfold registered. rewrite Hsvc. simpl. rewrite Hid.
  eexists. f_equal. f_equal. apply leaderEvents_no_pending.
  unfold service_RemoveInstance. rewrite Hid. cbn [snd].
  pose proof (Hinv _ _ Hsvc) as Hflag. simpl in Hflag.
  cbn [leaderID setInstancesField].
  destruct (String.eqb_spec (ID inst) (leaderID svc)) as [Heq|Hne]; [|exact Hflag].
  destruct Hcase as [?|Hempty]; [done|].
  unfold maybePickLeader. cbn [instances clearLeader setInstancesField].
  rewrite Hempty. rewrite (proj2 (range_map_nil ∅) eq_refl). exact Hflag.
Qed.

(** On a registered name, [SetService name list] with a non-nil list
    emits, in this order: for each list element the [up], [update] or no
    event that [AddInstance] would emit against the instances registered
    before the call; one [down] event for every previously registered
    instance whose ID the list does not carry; and, only when the list is
    not empty, at most one [leader] event, which carries the instance
    [GetLeader] returns afterwards.  The service then stores, for each ID,
    the last list element that carries it. *)
Theorem SetService_diff name (l : list Instance) st svc :
  services st !! name = Some svc →
  ∃ st' downs leaderEvs,
    SetService name (Some l) st =
      Ok () st' ((l ≫= changeEvents name (instances svc)) ++ downs ++ leaderEvs) ∧
    downs ≡ₚ (λ kv, mkEvent name EventKindDown kv.2)
               <$> filter (λ kv, kv.1 ∉ ID <$> l) (map_to_list (instances svc)) ∧
    registered st' name = indexByID l ∧
    (∀ n, n ≠ name → services st' !! n = services st !! n) ∧
    (l = [] → leaderEvs = []) ∧
    (leaderEvs = [] ∨
     ∃ ld, leaderEvs = [mkEvent name EventKindLeader ld] ∧
           GetLeader name st' = Ok (Some ld) st' []).
Proof.
  intros Hsvc. rewrite (SetService_existing_run _ _ _ _ Hsvc).
  eexists _, _, _. split; [reflexivity|].
  split; [|split; [|split; [|split]]].
  - apply fmap_Permutation.
    assert (Hfilter : ∀ es : list (string * Instance),
              List.filter (λ kv, bool_decide (indexByID l !! kv.1 = None)) es
              = filter (λ kv, kv.1 ∉ ID <$> l) es).
    { induction es as [|kv es IH]; [done|]. simpl. rewrite filter_cons, IH.
      pose proof (indexByID_None l kv.1) as Hiff.
      destruct (decide (kv.1 ∉ ID <$> l)) as [Hy|Hn].
      - by rewrite bool_decide_eq_true_2 by (by apply Hiff).
      - by rewrite bool_decide_eq_false_2 by (by rewrite Hiff). }
    rewrite Hfilter. by rewrite range_map_perm.
  - rewrite registered_insert.
    destruct l; cbn [instances setNotifyLeader]; apply service_SetInstances_instances.
  - intros n Hn. simpl. by rewrite lookup_insert_ne.
  - by intros ->.
  - destruct l as [|a l]; [by left|].
    destruct (leaderEvents_cases name (service_SetInstances (indexByID (a :: l)) svc))
      as [->|(ld & -> & Hl)]; [by left|right].
    exists ld. split; [done|].
    rewrite GetLeader_run. cbn [services]. rewrite lookup_insert_eq. by rewrite Hl.
Qed.

(** [SetService] with a nil list is [RemoveService]: on every registry and
    name the two calls give the same result, a panic on a name that is not
    registered, and otherwise the deletion of the service with one [down]
    event per instance and no [leader] event. *)
Theorem SetService_nil_is_RemoveService name st :
  SetService name None st = RemoveService name st ∧
  (services st !! name = None → RemoveService name st = Panic []) ∧
  (∀ svc, services st !! name = Some svc →
     RemoveService name st =
       Ok () {| services := delete name (services st); subscribers := subscribers st |}
          ((λ kv, mkEvent name EventKindDown kv.2) <$> range_map (instances svc))).
Proof.
  split; [|split; [apply RemoveService_unknown|apply RemoveService_known]].
  destruct (services st !! name) as [svc|] eqn:Hsvc.
  - by rewrite (SetService_nil_known _ _ _ Hsvc), (RemoveService_known _ _ _ Hsvc).
  - by rewrite (SetService_nil_unknown _ _ Hsvc), (RemoveService_unknown _ _ Hsvc).
Qed.

(** [AddService] emits nothing and is idempotent: it creates an empty
    service with no leader under a new name, leaves a registered name as it
    is, and a second call changes nothing. *)
Theorem AddService_idempotent name st :
  ∃ st',
    AddService name st = Ok () st' [] ∧
    AddService name st' = Ok () st' [] ∧
    services st' !! name = Some (default newService (services st !! name)) ∧
    (∀ n, n ≠ name → services st' !! n = services st !! n) ∧
    subscribers st' = subscribers st ∧
    (is_Some (services st !! name) → st' = st).
Proof.
  rewrite AddService_run. eexists. split; [reflexivity|].
  split; [|split; [|split; [|split]]].
  - rewrite AddService_run. simpl. rewrite lookup_insert_eq. simpl.
    by rewrite insert_insert_eq.
  - simpl. apply lookup_insert_eq.
  - intros n Hn. simpl. by rewrite lookup_insert_ne.
  - done.
  - intros [svc Hsvc]. rewrite Hsvc. simpl. rewrite insert_id by done. by destruct st.
Qed.

(** The reads emit nothing and leave the registry as it is.  [Get] returns
    exactly the instances registered under the name, each once, and none
    for a name that is not registered; what [GetLeader] returns is one of
    them. *)
Theorem Get_and_GetLeader name st :
  ∃ insts leader,
    Get name st = Ok insts st [] ∧
    GetLeader name st = Ok leader st [] ∧
    insts ≡ₚ (map_to_list (registered st name)).*2 ∧
    (services st !! name = None → insts = [] ∧ leader = None) ∧
    (∀ l, leader = Some l → l ∈ insts).
Proof.
  eexists _, _. split; [reflexivity|]. split; [reflexivity|].
  split; [apply getLocked_perm|]. split.
  - intros Hsvc. unfold getLocked. by rewrite Hsvc.
  - intros l Hl. unfold getLocked. destruct (services st !! name) as [svc|]; [|done].
    simpl in Hl. apply list_elem_of_fmap. exists (leaderID svc, l).
    split; [done|]. by apply range_map_elem.
Qed.
End MoreSingleCalls.

Lemma RemoveInstance_without_leader_event_witness :
  ∃ st', State_RemoveInstance (R:=canonical_range) "web" (ID instB) web_pair_state =
           Ok () st' [mkEvent "web" EventKindDown instB].
Proof.
  apply (@RemoveInstance_without_leader_event canonical_range "web" (ID instB)
           web_pair_state web_pair_service instB).
  - exact web_pair_no_pending.
  - reflexivity.
  - reflexivity.
  - left. discriminate.
Defined.

Lemma SetService_diff_witness :
  ∃ st' downs leaderEvs,
    SetService (R:=canonical_range) "web" (Some [instB_meta; instC]) web_pair_state =
      Ok () st' (([instB_meta; instC] ≫= changeEvents "web" (instances web_pair_service))
                 ++ downs ++ leaderEvs) ∧
    downs ≡ₚ (λ kv, mkEvent "web" EventKindDown kv.2)
               <$> filter (λ kv, kv.1 ∉ ID <$> [instB_meta; instC])
                     (map_to_list (instances web_pair_service)) ∧
    registered st' "web" = indexByID [instB_meta; instC] ∧
    (∀ n, n ≠ "web" → services st' !! n = services web_pair_state !! n) ∧
    ([instB_meta; instC] = [] → leaderEvs = []) ∧
    (leaderEvs = [] ∨
     ∃ ld, leaderEvs = [mkEvent "web" EventKindLeader ld] ∧
           GetLeader "web" st' = Ok (Some ld) st' []).
Proof.
  apply (@SetService_diff canonical_range "web" [instB_meta; instC]
           web_pair_state web_pair_service).
  reflexivity.
Defined.

(** ** Listing the services *)

(** [ListServices] emits nothing, leaves the registry as it is, and returns
    every registered name exactly once, whatever the iteration order. *)
Theorem ListServices_names {O : RangeOrder} st :
  ∃ names,
    ListServices st = Ok names st [] ∧
    NoDup names ∧
    ∀ n, n ∈ names ↔ is_Some (services st !! n).
Proof.
  eexists. split; [reflexivity|]. split.
  - rewrite (go_range_perm (services st)). apply NoDup_fst_map_to_list.
  - intros n. rewrite (go_range_perm (services st)). split.
    + intros ([k svc] & -> & Hk%elem_of_map_to_list)%list_elem_of_fmap. by exists svc.
    + intros [svc Hsvc]. apply list_elem_of_fmap. exists (n, svc).
      split; [done|]. by apply elem_of_map_to_list.
Qed.

(** ** Registering and deregistering a newcomer *)

Section NewcomerRoundTrip.
Context {R : MapRange}.

(** On a service whose leader bookkeeping is sound and whose instances
    have distinct indices: [AddInstance] of an instance with a fresh ID
    followed by [RemoveInstance] of that ID returns the instance, and
    restores the instance map and the leader, also when the newcomer had
    taken the leadership in between. *)
Theorem service_add_remove_restores inst s :
  leader_inv (λ i n, Index i = n) s →
  distinct_indices (instances s) →
  instances s !! ID inst = None →
  (service_RemoveInstance (ID inst) (service_AddInstance inst s).2).1 = Some inst ∧
  instances (service_RemoveInstance (ID inst) (service_AddInstance inst s).2).2
    = instances s ∧
  Leader (Some (service_RemoveInstance (ID inst) (service_AddInstance inst s).2).2)
    = Leader (Some s).
Proof.
  intros [Hok Hs] Hdist Hfresh.
  unfold service_AddInstance. cbn [snd]. unfold service_RemoveInstance.
  rewrite maybeSetLeader_instances. cbn [instances setInstancesField].
  rewrite lookup_insert_eq. cbn [fst snd].
  rewrite delete_insert_id by done.
  unfold maybeSetLeader.
  change (adopts (setInstancesField (<[ID inst:=inst]> (instances s)) s) inst)
    with (adopts s inst).
  destruct (adopts s inst) eqn:Had; cbn [leaderID setInstancesField].
  - rewrite String.eqb_refl. split; [done|].
    rewrite maybePickLeader_instances. split; [done|].
    set (r := maybePickLeader _).
    assert (Hr : leader_inv (λ i n, Index i = n) r).
    { apply maybePickLeader_inv; [done|exact Hok|by left]. }
    assert (Hri : instances r = instances s).
    { unfold r. by rewrite maybePickLeader_instances. }
    destruct Hr as [_ Hr]. rewrite Hri in Hr. simpl. rewrite Hri.
    destruct Hs as [[He _]|[[Hlt (l & Hl & Hidx)] Hmin]].
    { rewrite He. by rewrite !lookup_empty. }
    destruct Hr as [[He _]|[[Hlt' (l' & Hl' & Hidx')] Hmin']].
    { rewrite He in Hl. by rewrite lookup_empty in Hl. }
    rewrite Hri in Hl'.
    assert (Heq : leaderID r = leaderID s).
    { apply (Hdist _ _ l' l Hl' Hl).
      specialize (Hmin _ _ Hl'). specialize (Hmin' _ _ Hl). lia. }
    by rewrite Heq.
  - apply adopts_false in Had as [Hlt _].
    destruct Hs as [[_ Hz]|[[_ (l & Hl & _)] _]]; [lia|].
    destruct (String.eqb_spec (ID inst) (leaderID s)) as [Heq|Hne].
    { rewrite <- Heq in Hl. congruence. }
    done.
Qed.
End NewcomerRoundTrip.

Lemma web_pair_leader_inv : leader_inv (λ i n, Index i = n) web_pair_service.
Proof.
  split; [unfold entries_ok; by_decision|]. right. split.
  - split; [done|]. by exists instA.
  - change (map_Forall (λ _ j, leaderIndex web_pair_service ≤ Index j)
              (instances web_pair_service)).
    by_decision.
Qed.

Lemma web_pair_distinct : distinct_indices (instances web_pair_service).
Proof.
  assert (H : map_Forall (λ k1 i1,
                map_Forall (λ k2 i2, Index i1 = Index i2 → k1 = k2)
                  (instances web_pair_service)) (instances web_pair_service))
    by by_decision.
  intros k1 k2 i1 i2 H1 H2. by apply (H k1 i1 H1 k2 i2 H2).
Qed.

Lemma service_add_remove_restores_witness :
  (service_RemoveInstance (R:=canonical_range) (ID instD)
     (service_AddInstance instD web_pair_service).2).1 = Some instD ∧
  instances (service_RemoveInstance (R:=canonical_range) (ID instD)
               (service_AddInstance instD web_pair_service).2).2
    = instances web_pair_service ∧
  Leader (Some (service_RemoveInstance (R:=canonical_range) (ID instD)
                  (service_AddInstance instD web_pair_service).2).2)
    = Leader (Some web_pair_service).
Proof.
  apply (@service_add_remove_restores canonical_range instD web_pair_service).
  - exact web_pair_leader_inv.
  - exact web_pair_distinct.
  - reflexivity.
Defined.

Example newcomer_takes_leadership :
  Leader (Some (service_AddInstance instD web_pair_service).2) = Some instD.
Proof. by vm_compute. Qed.

(** ** Instances with a computed ID *)

(** [Valid] reads [ID], [Addr] and [Proto] only; and an instance that
    carries the ID computed by [id] passes [Valid] exactly when its proto
    and its address pass their checks: it never fails with the ID-mismatch
    error. *)
Theorem Valid_with_computed_id
    (SplitHostPort : string → (string * string) + AddrError)
    (md5_Sum : string → string) (inst : Instance) :
  (∀ meta idx,
     Valid SplitHostPort md5_Sum
       (mkInstance (ID inst) (Addr inst) (Proto inst) meta idx)
     = Valid SplitHostPort md5_Sum inst) ∧
  (Valid SplitHostPort md5_Sum
     (mkInstance (instance_id md5_Sum inst) (Addr inst) (Proto inst)
        (Meta inst) (Index inst)) = None ↔
   validProto inst = None ∧ ∃ hp, SplitHostPort (Addr inst) = inl hp) ∧
  (∀ msg,
     Valid SplitHostPort md5_Sum
       (mkInstance (instance_id md5_Sum inst) (Addr inst) (Proto inst)
          (Meta inst) (Index inst)) ≠ Some (Errorf msg)).
Proof.
  split; [done|].
  unfold Valid, instance_id, validProto. cbn [ID Addr Proto].
  rewrite String.eqb_refl. cbn [negb].
  destruct (String.eqb (Proto inst) ""); [valid_cases|].
  destruct (existsb notLowerAlnum (runes (Proto inst))); [valid_cases|].
  destruct (SplitHostPort (Addr inst)) as [hp|e]; valid_cases.
Qed.
